(** * Line-map builder and editor lookup of markdown-preview-plus

    A shallow embedding of [src/markdown-preview-view/util.ts]:
    [buildLineMap] (the map from source lines to structural paths used by
    scroll-sync) and [editorForId].

    Modelling scope.
    - Strings are sequences of code units below 256 (Latin-1).
    - [parseInt] is modelled by the mathematical integer it reads, a [Z].
      The number the code holds is that integer converted to a double,
      which is the same value inside the safe-integer range (absolute value
      at most 2^53, [safeInteger]); beyond it the conversion rounds and
      [++i] can stop advancing.  A statement whose conclusion needs the line
      loop to run to its end carries [safeInteger] on both bounds; the other
      statements either assume that the iteration has returned, or concern
      an iteration whose loop does not run at all.  [NaN] and [undefined]
      are both modelled by [None]: every comparison with either of them is
      false.
    - The DOM is a tree of elements (text nodes play no role in the code).
      A node handle of the live tree is a position in that tree. *)

From Stdlib Require Import Ascii String ZArith.
From stdpp Require Import gmap strings list.

Local Open Scope string_scope.
Local Open Scope list_scope.

(** ** Strings *)

Module Str.

Definition code (c : ascii) : nat := nat_of_ascii c.

Definition between (lo hi : nat) (c : ascii) : bool :=
  (lo <=? code c)%nat && (code c <=? hi)%nat.

(** Letters that [String.prototype.toLowerCase] changes. *)
Definition isUpper (c : ascii) : bool :=
  between 65 90 c || between 192 214 c || between 216 222 c.

Definition lowerChar (c : ascii) : ascii :=
  if isUpper c then ascii_of_nat (code c + 32) else c.

(** "ASCII uppercase" of the DOM standard: only a-z change. *)
Definition asciiUpperChar (c : ascii) : ascii :=
  if between 97 122 c then ascii_of_nat (code c - 32) else c.

Fixpoint mapChars (f : ascii -> ascii) (s : string) : string :=
  match s with
  | EmptyString => EmptyString
  | String c r => String (f c) (mapChars f r)
  end.

Fixpoint allChars (p : ascii -> bool) (s : string) : bool :=
  match s with
  | EmptyString => true
  | String c r => p c && allChars p r
  end.

Definition toLowerCase (s : string) : string := mapChars lowerChar s.
Definition asciiUpper (s : string) : string := mapChars asciiUpperChar s.

(** A string is lowercase when it holds no letter that has a lowercase
    form. *)
Definition lowercase (s : string) : bool := allChars (fun c => negb (isUpper c)) s.

(** [s.split(sep)] for a one-character separator: never empty. *)
Fixpoint split (sep : ascii) (s : string) : list string :=
  match s with
  | EmptyString => [EmptyString]
  | String c r =>
      if Ascii.eqb c sep then EmptyString :: split sep r
      else match split sep r with
           | tok :: toks => String c tok :: toks
           | [] => [String c EmptyString]
           end
  end.

(** White space skipped by [parseInt]: TAB, LF, VT, FF, CR, SP, NBSP. *)
Definition isWhiteSpace (c : ascii) : bool :=
  between 9 13 c || (code c =? 32)%nat || (code c =? 160)%nat.

Fixpoint trimStart (s : string) : string :=
  match s with
  | EmptyString => EmptyString
  | String c r => if isWhiteSpace c then trimStart r else s
  end.

Definition digitValue (c : ascii) : option Z :=
  if between 48 57 c then Some (Z.of_nat (code c - 48)) else None.

(** Value of the longest prefix of decimal digits; [acc] is [None] as
    long as no digit has been read. *)
Fixpoint digits (s : string) (acc : option Z) : option Z :=
  match s with
  | EmptyString => acc
  | String c r =>
      match digitValue c with
      | Some d => digits r (Some (10 * default 0 acc + d)%Z)
      | None => acc
      end
  end.

(** [parseInt(s, 10)]; [None] is [NaN]. *)
Definition parseInt (s : string) : option Z :=
  match trimStart s with
  | String "-" r => Z.opp <$> digits r None
  | String "+" r => digits r None
  | t => digits t None
  end.

End Str.

(** ** The document tree *)

Inductive Namespace := HTML | SVG | MathML.

#[global] Instance Namespace_eq_dec : EqDecision Namespace.
Proof. solve_decision. Defined.

(** An element: its namespace and local name, the value of its
    [data-source-lines] attribute ([dataset.sourceLines]) when it has one,
    and its element children in order. *)
#[warnings="-register-all"]
Inductive Element : Type :=
  mkElement {
    namespace : Namespace;
    localName : string;
    sourceLines : option string;
    children : list Element
  }.

(** [Element.tagName]: the qualified name, ASCII-uppercased for elements of
    the HTML namespace in an HTML document. *)
Definition tagName (x : Element) : string :=
  match namespace x with
  | HTML => Str.asciiUpper (localName x)
  | _ => localName x
  end.

(** One level of context above a node: the parent's own data and the
    node's siblings, the preceding ones nearest first. *)
Record Frame := mkFrame {
  parent_ns : Namespace;
  parent_name : string;
  parent_lines : option string;
  before : list Element;
  after : list Element
}.

Definition plug (f : Frame) (x : Element) : Element :=
  mkElement (parent_ns f) (parent_name f) (parent_lines f)
            (rev_append (before f) (x :: after f)).

(** A node of the live tree: the element together with everything above
    it.  The document element has no frame above. *)
Record Node := mkNode { self : Element; above : list Frame }.

Definition parentElement (e : Node) : option Node :=
  match above e with
  | [] => None
  | f :: fs => Some (mkNode (plug f (self e)) fs)
  end.

Definition previousElementSibling (e : Node) : option Node :=
  match above e with
  | [] => None
  | f :: fs =>
      match before f with
      | [] => None
      | s :: b =>
          Some (mkNode s (mkFrame (parent_ns f) (parent_name f) (parent_lines f)
                                  b (self e :: after f) :: fs))
      end
  end.

(** The document element above a node, found by following the parent
    links to the top. *)
Fixpoint rootFrom (x : Element) (ctx : list Frame) : Element :=
  match ctx with
  | [] => x
  | f :: fs => rootFrom (plug f x) fs
  end.

Definition documentElement (e : Node) : Element := rootFrom (self e) (above e).

Definition previousSiblings (e : Node) : list Element :=
  match above e with
  | [] => []
  | f :: _ => before f
  end.

(** All element nodes below (and including) [x] in document order. *)
Fixpoint descend (ctx : list Frame) (x : Element) {struct x} : list Node :=
  match x with
  | mkElement ns name lines kids =>
      mkNode x ctx ::
      (fix siblings (prev rest : list Element) {struct rest} : list Node :=
         match rest with
         | [] => []
         | c :: next =>
             descend (mkFrame ns name lines prev next :: ctx) c
             ++ siblings (c :: prev) next
         end) [] kids
  end.

Fixpoint descendKids (ctx : list Frame) (ns : Namespace) (name : string)
    (lines : option string) (prev rest : list Element) : list Node :=
  match rest with
  | [] => []
  | c :: next =>
      descend (mkFrame ns name lines prev next :: ctx) c
      ++ descendKids ctx ns name lines (c :: prev) next
  end.

Definition allNodes (doc : Element) : list Node := descend [] doc.

Definition hasSourceLines (e : Node) : bool :=
  match sourceLines (self e) with Some _ => true | None => false end.

(** [dom.querySelectorAll('[data-source-lines]')]. *)
Definition querySelectorAll (doc : Element) : list Node :=
  filter (fun e => hasSourceLines e = true) (allNodes doc).

(** ** Structural paths *)

Record Step := mkStep { tag : string; index : nat }.

#[global] Instance Step_eq_dec : EqDecision Step.
Proof. solve_decision. Defined.

Abbreviation Path := (list Step).
Abbreviation LineMap := (gmap Z (list Step)).

(** The inner [while (sib.previousElementSibling)] loop: [prev] holds the
    preceding siblings still to visit, nearest first. *)
Fixpoint sibLoop (etag : string) (prev : list Element) (index : nat) : nat :=
  match prev with
  | [] => index
  | sib :: prev' =>
      sibLoop etag prev' (if decide (tagName sib = etag) then S index else index)
  end.

(** The outer [while (e && e.tagName !== 'BODY')] loop, at the node made of
    [x] and the frames [ctx] above it. *)
Fixpoint walkFrom (x : Element) (ctx : list Frame) (path : Path) : Path :=
  if decide (tagName x = "BODY") then path
  else
    let index := sibLoop (tagName x) (previousSiblings (mkNode x ctx)) 0 in
    let path' := mkStep (Str.toLowerCase (tagName x)) index :: path in
    match ctx with
    | [] => path'
    | f :: fs => walkFrom (plug f x) fs path'
    end.

Definition walk (e : Node) (path : Path) : Path := walkFrom (self e) (above e) path.

(** The path of an element as [buildLineMap] computes it. *)
Definition pathOf (e : Node) : Path := walk e [].

(** ** Ranges *)

(** [value.split(' ').map((x) => parseInt(x, 10))], destructured into
    [start] and [end]; a missing second token leaves [end] undefined. *)
Definition parseRange (value : string) : option Z * option Z :=
  let nums := Str.parseInt <$> Str.split " " value in
  (mjoin (nums !! 0%nat), mjoin (nums !! 1%nat)).

(** ** The line map *)

(** [if (!map[i] || map[i].length < path.length) map[i] = path] *)
Definition assign (map : LineMap) (i : Z) (path : Path) : LineMap :=
  match map !! i with
  | None => <[i := path]> map
  | Some old => if (length old <? length path)%nat then <[i := path]> map else map
  end.

(** [for (let i = start; i < end; ++i)]: no iteration when either bound is
    [NaN] or [undefined]. *)
Definition forLines (start end_ : option Z) (path : Path) (map : LineMap) : LineMap :=
  match start, end_ with
  | Some s, Some t => foldl (fun m i => assign m i path) map (seqZ s (t - s))
  | _, _ => map
  end.

(** Outcome of running JavaScript code: a value, or a [TypeError] raised by
    calling a method on [undefined]. *)
Inductive Completion (A : Type) : Type :=
  | Normal (a : A)
  | TypeError.
Arguments Normal {A} a.
Arguments TypeError {A}.

#[global] Instance Completion_ret : MRet Completion := fun A a => Normal a.

#[global] Instance Completion_bind : MBind Completion := fun A B k c =>
  match c with
  | Normal a => k a
  | TypeError => TypeError
  end.

(** [he.dataset]: HTML and SVG elements have a dataset, whose [sourceLines]
    entry is the value of the [data-source-lines] attribute when the element
    has one; an element of the MathML namespace has no dataset. *)
Definition dataset (x : Element) : option (option string) :=
  match namespace x with
  | MathML => None
  | _ => Some (sourceLines x)
  end.

(** [he.dataset.sourceLines!.split(' ')]: reading a property of the
    missing dataset fails, and so does the method call on [undefined]. *)
Definition readRange (e : Node) : Completion (option Z * option Z) :=
  match dataset (self e) with
  | Some (Some value) => Normal (parseRange value)
  | _ => TypeError
  end.

(** One iteration of the [for (const elem of ...)] loop. *)
Definition processElement (map : LineMap) (elem : Node) : Completion LineMap :=
  r ← readRange elem;
  mret (forLines r.1 r.2 (pathOf elem) map).

Fixpoint forElements (elems : list Node) (map : LineMap) : Completion LineMap :=
  match elems with
  | [] => Normal map
  | elem :: rest => map' ← processElement map elem; forElements rest map'
  end.

(** [buildLineMap], applied to the document that [DOMParser] built. *)
Definition buildLineMap (doc : Element) : Completion LineMap :=
  forElements (querySelectorAll doc) ∅.

(** ** Sample documents *)

Module Samples.

Definition el (name : string) (lines : option string) (kids : list Element) : Element :=
  mkElement HTML name lines kids.

Definition page (content : list Element) : Element :=
  el "html" None [el "head" None []; el "body" None content].

Definition siblings_doc : Element :=
  page [el "div" None [el "p" (Some "0 3") []; el "p" (Some "2 5") []]].

Definition nested_doc : Element :=
  page [el "div" (Some "0 10") [el "span" (Some "2 4") []]].


(** Two sibling paragraphs, the second with an annotated child. *)
Definition tie_doc : Element :=
  page [el "div" None
          [el "p" (Some "0 3") []; el "p" (Some "2 5") [el "span" (Some "2 3") []]]].


Definition empty_range_doc : Element :=
  page [el "p" (Some "5 5") []; el "p" (Some "0 1") []].

Definition empty_doc : Element := page [].

(** Inline SVG with an annotated [foreignObject]. *)
Definition svg_doc : Element :=
  page [el "div" (Some "0 2")
          [mkElement SVG "svg" None [mkElement SVG "foreignObject" (Some "0 1") []]]].


(** An annotated element of the head: no BODY above it. *)
Definition head_doc : Element :=
  el "html" None [el "head" None [el "meta" (Some "0 1") []]; el "body" None []].

(** The [k]-th element of the selection. *)
Definition selected (doc : Element) (k : nat) : Node :=
  default (mkNode doc []) (querySelectorAll doc !! k).

Definition resultOf (doc : Element) : LineMap :=
  match buildLineMap doc with
  | Normal m => m
  | TypeError => ∅
  end.

End Samples.

(** ** Notions used to state the properties *)

(** The element carries a range attribute whose two parsed bounds enclose
    line [i], the end bound excluded. *)
Definition covers (e : Node) (i : Z) : Prop :=
  ∃ value s t, sourceLines (self e) = Some value
               ∧ parseRange value = (Some s, Some t) ∧ (s ≤ i < t)%Z.

#[global] Instance covers_dec e i : Decision (covers e i).
Proof.
  unfold covers. destruct (sourceLines (self e)) as [value|].
  - destruct (parseRange value) as [[s|] [t|]] eqn:Hr.
    + destruct (decide (s ≤ i < t)%Z) as [Hi|Hi].
      * left. by exists value, s, t.
      * right. intros (v & s' & t' & Hv & Hr' & Hi'). congruence.
    + right. intros (v & s' & t' & Hv & Hr' & Hi'). congruence.
    + right. intros (v & s' & t' & Hv & Hr' & Hi'). congruence.
    + right. intros (v & s' & t' & Hv & Hr' & Hi'). congruence.
  - right. intros (v & s' & t' & Hv & _). discriminate.
Defined.


(** What one assignment does to the entry of a line. *)
Definition better (cur : option Path) (p : Path) : option Path :=
  match cur with
  | None => Some p
  | Some old => if (length old <? length p)%nat then Some p else Some old
  end.

(** [cur] holds nothing, or a path shorter than [n]. *)
Definition shorterThan (n : nat) (cur : option Path) : Prop :=
  match cur with
  | None => True
  | Some q => (length q < n)%nat
  end.

(** The structural path as the specification words it: take the element and
    its ancestors, innermost first, each with its preceding siblings; stop
    before the first one whose tag name is BODY; give each the step made of
    its lowercased tag name and the number of preceding siblings with the
    same tag name; list the steps outermost first. *)
Fixpoint ancestryFrom (x : Element) (ctx : list Frame) : list (Element * list Element) :=
  (x, previousSiblings (mkNode x ctx)) ::
  match ctx with
  | [] => []
  | f :: fs => ancestryFrom (plug f x) fs
  end.

Definition ancestry (e : Node) : list (Element * list Element) :=
  ancestryFrom (self e) (above e).

Fixpoint belowBody (chain : list (Element * list Element)) : list (Element * list Element) :=
  match chain with
  | [] => []
  | (x, prev) :: up =>
      if decide (tagName x = "BODY") then [] else (x, prev) :: belowBody up
  end.

Definition specStep (a : Element * list Element) : Step :=
  mkStep (Str.toLowerCase (tagName a.1))
         (length (filter (fun s => tagName s = tagName a.1) a.2)).

Definition specPath (e : Node) : Path :=
  reverse (specStep <$> belowBody (ancestry e)).

(** The path with the document element left out as well: the chain of the
    element and its ancestors without its last member, the document
    element, cut before the first BODY. *)
Fixpoint dropRoot (chain : list (Element * list Element)) : list (Element * list Element) :=
  match chain with
  | [] => []
  | [_] => []
  | a :: up => a :: dropRoot up
  end.

Definition rootExcludedPath (e : Node) : Path :=
  reverse (specStep <$> belowBody (dropRoot (ancestry e))).

(** The element is a BODY element or has one among its ancestors. *)
Definition insideBody (e : Node) : Prop :=
  Exists (fun a => tagName a.1 = "BODY") (ancestry e).

(** Integers that a double holds exactly and from which adding one is
    exact. *)
Definition safeInteger (z : Z) : Prop := (- 2 ^ 53 ≤ z ≤ 2 ^ 53)%Z.

(** What the HTML parser guarantees about names outside the HTML namespace:
    a [body] start tag never creates an SVG or MathML element. *)
Definition foreignNamesParsed (doc : Element) : Prop :=
  Forall (fun e => namespace (self e) ≠ HTML →
                   Str.toLowerCase (localName (self e)) ≠ "body")
         (allNodes doc).

(** The node at which the upward walk ends: the nearest ancestor-or-self
    whose tag name is BODY (left out of the path), or else the document
    element (the first step of the path). *)
Fixpoint boundaryFrom (x : Element) (ctx : list Frame) : Node :=
  if decide (tagName x = "BODY") then mkNode x ctx
  else
    match ctx with
    | [] => mkNode x []
    | f :: fs => boundaryFrom (plug f x) fs
    end.

Definition boundary (e : Node) : Node := boundaryFrom (self e) (above e).

(** Lowercasing keeps the tag names of the document apart: two elements
    whose tags agree in a step have the same [tagName]. *)
Definition tagsSeparate (doc : Element) : Prop :=
  Forall (fun a =>
            Forall (fun b =>
                      Str.toLowerCase (tagName (self a)) = Str.toLowerCase (tagName (self b)) →
                      tagName (self a) = tagName (self b))
                   (allNodes doc))
         (allNodes doc).

(** The token holds no space. *)
Definition noSpace (s : string) : Prop :=
  Str.allChars (fun c => negb (Ascii.eqb c " ")) s = true.

(** ** Style collection *)

Module Styles.

(** A [<style>] element of the host: its [context] attribute when it has
    one, and its text. *)
Record StyleElement := mkStyleElement { context : option string; innerText : string }.

Record Theme := mkTheme { themeName : string; themeStylesheetPaths : list string }.

Record Package := mkPackage { packageStylesheetPaths : list string }.

(** The part of the package configuration, [atomConfig()], that the style
    functions read. *)
Record Config := mkConfig {
  importPackageStyles : list string;
  useGitHubStyle : bool;
  syntaxThemeName : string
}.

(** The host application as the style functions see it: the registries of
    [atom.styles], [atom.themes] and [atom.packages], the configuration, the
    package directory, [path.join], the hook that the tests install on
    [window], [fs.readFileSync] in binary mode ([None] when it throws) and
    the base64 encoding of [Buffer].  [loadStylesheet] is taken as a function
    of the path. *)
Record Host := mkHost {
  styleElements : list StyleElement;
  styleElementsBySourcePath : gmap string StyleElement;
  userStyleSheetPath : string;
  loadedThemes : option (list Theme);
  loadStylesheet : string → string;
  activePackage : string → option Package;
  atomConfig : Config;
  packagePath : string;
  pathJoin : list string → string;
  getStylesOverride : option (bool → list string);
  readFileSync : string → option string;
  toBase64 : string → string
}.

(** A call of [atom.notifications.addWarning]. *)
Record Warning := mkWarning { message : string; detail : string }.

(** The optional argument of [getStyles]. *)
Inductive ContextArg := CtxUndefined | CtxNull | CtxString (s : string).

(** [context === undefined || element.getAttribute('context') === context] *)
Definition contextMatches (arg : ContextArg) (element : StyleElement) : bool :=
  match arg, context element with
  | CtxUndefined, _ => true
  | CtxNull, None => true
  | CtxString s, Some s' => bool_decide (s' = s)
  | _, _ => false
  end.

Fixpoint getStyles (elements : list StyleElement) (arg : ContextArg) : list string :=
  match elements with
  | [] => []
  | element :: rest =>
      if contextMatches arg element then innerText element :: getStyles rest arg
      else getStyles rest arg
  end.

Definition getClientStyle (host : Host) (file : string) : string :=
  loadStylesheet host (pathJoin host [packagePath host; "styles-client"; file +:+ ".less"]).

Definition getUserStyles (host : Host) : list string :=
  match styleElementsBySourcePath host !! userStyleSheetPath host with
  | None => []
  | Some el => [innerText el]
  end.

(** [\w] of a regular expression without flags. *)
Definition isWordChar (c : ascii) : bool :=
  Str.between 48 57 c || Str.between 65 90 c || Str.between 97 122 c
  || (Str.code c =? 95)%nat.

(** The rest of [s] after the literal [lit], when [s] starts with it. *)
Fixpoint startsWith (lit s : string) : option string :=
  match lit, s with
  | EmptyString, _ => Some s
  | String a lit', String c s' => if Ascii.eqb a c then startsWith lit' s' else None
  | String _ _, EmptyString => None
  end.

Definition headIsWord (s : string) : bool :=
  match s with
  | EmptyString => false
  | String c _ => isWordChar c
  end.

Fixpoint lastIsWord (s : string) : bool :=
  match s with
  | EmptyString => false
  | String c EmptyString => isWordChar c
  | String _ r => lastIsWord r
  end.

(** The pattern [\blit\b] matches at the start of [s], where [prevWord]
    tells whether the character before [s] is a word character. *)
Definition matchAt (lit : string) (prevWord : bool) (s : string) : bool :=
  match startsWith lit s with
  | Some rest =>
      xorb prevWord (headIsWord lit) && xorb (lastIsWord lit) (headIsWord rest)
  | None => false
  end.

(** [s.replace(/\blit\b/g, repl)] from a position inside the string:
    [skip] counts the characters of the last match still to pass over. *)
Fixpoint replaceFrom (lit repl : string) (prevWord : bool) (skip : nat) (s : string) : string :=
  match s with
  | EmptyString => EmptyString
  | String c r =>
      match skip with
      | S k => replaceFrom lit repl (isWordChar c) k r
      | O =>
          if matchAt lit prevWord s
          then repl +:+ replaceFrom lit repl (isWordChar c) (String.length lit - 1) r
          else String c (replaceFrom lit repl (isWordChar c) 0 r)
      end
  end.

Definition replaceAll (lit repl s : string) : string := replaceFrom lit repl false 0 s.

Definition processEditorStyles (styles : list string) : list string :=
  replaceAll "atom-text-editor" "pre.editor-colors" <$> styles.

Definition processWorkspaceStyles (styles : list string) : list string :=
  replaceAll "atom-workspace" ":root" <$> styles.

(** [getSyntaxTheme]: the styles, and the warnings it raised. *)
Definition getSyntaxTheme (host : Host) (name : string) : list string * list Warning :=
  let default := processEditorStyles (getStyles (styleElements host) (CtxString "atom-text-editor")) in
  if decide (name = "") then (default, [])
  else
    let found :=
      match loadedThemes host with
      | Some themes => head (filter (fun x => themeName x = name) themes)
      | None => None
      end in
    match found with
    | Some theme =>
        (processEditorStyles (loadStylesheet host <$> themeStylesheetPaths theme), [])
    | None =>
        (default,
         [mkWarning "Failed to load syntax theme"
                    ("Markdown-preview-plus couldn't find '" +:+ name +:+ "'")])
    end.

Definition getActivePackageStyles (host : Host) (packageName : string) : list string :=
  match activePackage host packageName with
  | None => []
  | Some pack =>
      omap (fun ss => innerText <$> styleElementsBySourcePath host !! ss)
           (packageStylesheetPaths pack)
  end.

Definition includes (list : list string) (x : string) : bool := bool_decide (x ∈ list).

(** The styles pushed inside [if (display) { ... }]. *)
Definition displayStyles (host : Host) : list string :=
  let globalStyles :=
    match styleElementsBySourcePath host !! "global-text-editor-styles" with
    | Some el => processWorkspaceStyles [innerText el]
    | None => []
    end in
  let packList := importPackageStyles (atomConfig host) in
  let packageStyles :=
    if includes packList "*" then
      processEditorStyles (getStyles (styleElements host) CtxUndefined)
      ++ [getClientStyle host "patch"]
    else
      mbind (fun pack => processEditorStyles (getActivePackageStyles host pack)) packList
      ++ (if includes packList "fonts" then
            match styleElementsBySourcePath host !! "fonts-package-editorfont" with
            | Some fontsVar => processEditorStyles [innerText fontsVar]
            | None => []
            end
          else []) in
  globalStyles ++ [getClientStyle host "editor-global-font"] ++ packageStyles.

(** [getPreviewStyles]: the styles, and the warnings raised on the way. *)
Definition getPreviewStyles (host : Host) (display : bool) : list string * list Warning :=
  match getStylesOverride host with
  | Some override => (override display, [])
  | None =>
      let theme := getSyntaxTheme host (syntaxThemeName (atomConfig host)) in
      ((if display then displayStyles host else [])
       ++ [getClientStyle host "generic"]
       ++ (if display then [getClientStyle host "display"] else [])
       ++ [getClientStyle host (if useGitHubStyle (atomConfig host) then "github" else "default")]
       ++ theme.1
       ++ processEditorStyles (getUserStyles host),
       theme.2)
  end.

(** *** Inlining an asset reference *)

Definition assetPrefix : string := "url(atom://markdown-preview-plus/assets/".

(** Characters that [.] does not match. *)
Definition isLineTerminator (c : ascii) : bool :=
  (Str.code c =? 10)%nat || (Str.code c =? 13)%nat.

(** The greedy group of the pattern, any characters of one line, followed
    by a closing parenthesis: the capture runs to the last closing
    parenthesis of the line; the second component is what follows that
    parenthesis. *)
Fixpoint captureGreedy (s : string) : option (string * string) :=
  match s with
  | EmptyString => None
  | String c r =>
      if isLineTerminator c then None
      else
        match captureGreedy r with
        | Some (capture, rest) => Some (String c capture, rest)
        | None => if Ascii.eqb c ")" then Some (EmptyString, r) else None
        end
  end.

(** The match of the pattern at the start of [s]: the asset name and the
    text after the match. *)
Definition assetAt (s : string) : option (string * string) :=
  startsWith assetPrefix s ≫= captureGreedy.

(** [css.replace(cssUrlRefExp, callback)] for the pattern without the [g]
    flag: only the leftmost match is replaced.  [None] when the callback
    throws. *)
Fixpoint replaceFirstAsset (callback : string → option string) (s : string) : option string :=
  match assetAt s with
  | Some (assetsName, rest) => (fun url => url +:+ rest) <$> callback assetsName
  | None =>
      match s with
      | EmptyString => Some EmptyString
      | String c r => String c <$> replaceFirstAsset callback r
      end
  end.

(** The callback: the asset file, base64 encoded, as a data URL. *)
Definition inlineAsset (host : Host) (assetsName : string) : option string :=
  originalData ← readFileSync host (pathJoin host [packagePath host; "assets"; assetsName]);
  Some ("url('data:image/jpeg;base64," +:+ toBase64 host originalData +:+ "')").

(** [getMarkdownPreviewCSS]: the style sheet ([None] when reading the asset
    throws), and the warnings raised while the styles were collected. *)
Definition getMarkdownPreviewCSS (host : Host) : option string * list Warning :=
  let styles := getPreviewStyles host false in
  (replaceFirstAsset (inlineAsset host) (String.concat (String "010" "") styles.1), styles.2).

(** The string holds no line terminator. *)
Definition oneLine (s : string) : Prop :=
  Str.allChars (fun c => negb (isLineTerminator c)) s = true.

(** The string is empty or begins with a line terminator. *)
Definition endsLine (rest : string) : Prop :=
  match rest with
  | EmptyString => True
  | String c _ => isLineTerminator c = true
  end.

(** A host for examples: two style elements, two loaded themes of the
    same name, the user style sheet registered, one asset file. *)
Definition sampleHost (themeWanted : string) (override : option (bool → list string)) : Host :=
  mkHost
    [mkStyleElement (Some "atom-text-editor") "atom-text-editor { color: red }";
     mkStyleElement None "atom-workspace { margin: 0 }"]
    {[ "user.less" := mkStyleElement None "atom-text-editor .mine { top: 0 }" ]}
    "user.less"
    (Some [mkTheme "one-dark" ["one-dark/index.less"]; mkTheme "one-dark" ["shadow.less"]])
    (fun p => "/* " +:+ p +:+ " */")
    (fun _ => None)
    (mkConfig ["fonts"] true themeWanted)
    "/pkg"
    (fun parts => String.concat "/" parts)
    override
    (fun p => if decide (p = "/pkg/assets/a.png") then Some "PNG" else None)
    (fun data => "base64:" +:+ data).

(** Notions used to state the properties of the replacement. *)

(** [lit] occurs somewhere in [s]. *)
Definition occursIn (lit s : string) : Prop := ∃ pre post, s = pre +:+ lit +:+ post.

(** The character [c] is none of the characters of [lit]. *)
Definition absentFrom (c : ascii) (lit : string) : Prop :=
  Str.allChars (fun x => negb (Ascii.eqb x c)) lit = true.

(** [lit] begins and ends with a word character. *)
Definition wordEnds (lit : string) : Prop := headIsWord lit = true ∧ lastIsWord lit = true.

(** The state of [prevWord] after the characters of [s] have gone by. *)
Fixpoint lastWordOr (prevWord : bool) (s : string) : bool :=
  match s with
  | EmptyString => prevWord
  | String c r => lastWordOr (isWordChar c) r
  end.

(** A search for [lit] in [s], position by position. *)
Fixpoint occursb (lit s : string) : bool :=
  match startsWith lit s with
  | Some _ => true
  | None =>
      match s with
      | EmptyString => false
      | String _ r => occursb lit r
      end
  end.

Definition tailOf (s : string) : string :=
  match s with
  | EmptyString => EmptyString
  | String _ r => r
  end.

Fixpoint initOf (s : string) : string :=
  match s with
  | EmptyString => EmptyString
  | String _ EmptyString => EmptyString
  | String c r => String c (initOf r)
  end.

End Styles.

(** ** Editor lookup *)

Module Workspace.

(** A text editor of the host: its numeric id and the rest of its state. *)
Record TextEditor := mkTextEditor { id : Z; title : string }.

(** [editorForId], over the list [atom.workspace.getTextEditors()]. *)
Fixpoint editorForId (editors : list TextEditor) (editorId : Z) : option TextEditor :=
  match editors with
  | [] => None
  | editor :: rest =>
      if decide (id editor = editorId) then Some editor
      else editorForId rest editorId
  end.

End Workspace.

(** * Properties *)

(** ** Strings *)

Module StrFacts.
Import Str.

Lemma lowerChar_not_upper c : isUpper (lowerChar c) = false.
Proof. destruct c as [[] [] [] [] [] [] [] []]; reflexivity. Qed.

Lemma toLowerCase_lowercase s : lowercase (toLowerCase s) = true.
Proof.
  induction s as [|c s IH]; [reflexivity|].
  cbn [toLowerCase mapChars lowercase allChars].
  rewrite lowerChar_not_upper. exact IH.
Qed.

(** Lowercasing an ASCII-uppercased character gives one of the letters of
    [body] only from the matching capital. *)
Lemma lower_upper_char (c lo up : ascii) :
  (lo, up) ∈ [("b", "B"); ("o", "O"); ("d", "D"); ("y", "Y")]%char →
  lowerChar (asciiUpperChar c) = lo → asciiUpperChar c = up.
Proof.
  intros Hin.
  repeat (apply elem_of_cons in Hin as [[= -> ->]|Hin]);
    [..|by apply elem_of_nil in Hin];
    destruct c as [[] [] [] [] [] [] [] []]; vm_compute; congruence.
Qed.

Lemma lower_upper_body s :
  toLowerCase (asciiUpper s) = "body" → asciiUpper s = "BODY".
Proof.
  destruct s as [|c1 [|c2 [|c3 [|c4 [|c5 s]]]]]; try discriminate.
  cbn [toLowerCase asciiUpper mapChars]. intros [= H1 H2 H3 H4].
  f_equal; [|f_equal; [|f_equal; [|f_equal]]];
    eapply lower_upper_char; try eassumption; set_solver.
Qed.

Lemma split_nonempty sep s : Str.split sep s ≠ [].
Proof.
  destruct s as [|c r]; [discriminate|]. cbn [split].
  destruct (Ascii.eqb c sep); [discriminate|].
  destruct (split sep r); discriminate.
Qed.

End StrFacts.

(** ** Navigation in the tree *)

(** The structural loops are the loops of the source, read through the
    live links [previousElementSibling] and [parentElement]. *)
Lemma previousSiblings_link (e : Node) :
  previousSiblings e =
    match previousElementSibling e with
    | Some sib => self sib :: previousSiblings sib
    | None => []
    end.
Proof.
  destruct e as [x [|f fs]]; [reflexivity|].
  unfold previousSiblings, previousElementSibling; cbn.
  by destruct (before f).
Qed.

Lemma sibLoop_link (e sib : Node) (index : nat) :
  sibLoop (tagName (self e)) (previousSiblings sib) index =
    match previousElementSibling sib with
    | Some sib' =>
        sibLoop (tagName (self e)) (previousSiblings sib')
                (if decide (tagName (self sib') = tagName (self e)) then S index else index)
    | None => index
    end.
Proof.
  rewrite (previousSiblings_link sib).
  by destruct (previousElementSibling sib).
Qed.

Lemma walk_link (e : Node) (path : Path) :
  walk e path =
    if decide (tagName (self e) = "BODY") then path
    else
      let index := sibLoop (tagName (self e)) (previousSiblings e) 0 in
      let path' := mkStep (Str.toLowerCase (tagName (self e))) index :: path in
      match parentElement e with
      | Some parent => walk parent path'
      | None => path'
      end.
Proof.
  destruct e as [x [|f fs]]; unfold walk, parentElement; cbn [self above walkFrom];
    by destruct (decide _).
Qed.

Lemma sibLoop_count etag prev index :
  sibLoop etag prev index =
    (index + length (filter (fun s => tagName s = etag) prev))%nat.
Proof.
  revert index. induction prev as [|s prev IH]; intros index; cbn [sibLoop].
  - rewrite filter_nil. cbn. lia.
  - rewrite IH, filter_cons. destruct (decide _); cbn [length]; lia.
Qed.

Lemma walkFrom_spec x ctx path :
  walkFrom x ctx path = reverse (specStep <$> belowBody (ancestryFrom x ctx)) ++ path.
Proof.
  revert x path. induction ctx as [|f fs IH]; intros x path;
    cbn [walkFrom ancestryFrom belowBody]; destruct (decide _) as [|Hne]; try done;
    rewrite fmap_cons, reverse_cons, <- app_assoc; cbn [app];
    unfold specStep at 2; cbn [fst snd].
  by rewrite IH, sibLoop_count.
Qed.

Lemma pathOf_spec (e : Node) : pathOf e = specPath e.
Proof.
  unfold pathOf, walk, specPath, ancestry. by rewrite walkFrom_spec, app_nil_r.
Qed.

Lemma ancestry_link (e : Node) :
  ancestry e =
    (self e, previousSiblings e) ::
    match parentElement e with
    | Some parent => ancestry parent
    | None => []
    end.
Proof. by destruct e as [x [|f fs]]. Qed.

(** ** The nodes of a document *)

Lemma Element_tree_ind (P : Element → Prop) :
  (∀ ns name lines kids, Forall P kids → P (mkElement ns name lines kids)) →
  ∀ x, P x.
Proof.
  intros step. fix IH 1. intros [ns name lines kids]. apply step.
  induction kids as [|c kids IHkids]; constructor; [apply IH | exact IHkids].
Qed.

Lemma descend_unfold ctx ns name lines kids :
  descend ctx (mkElement ns name lines kids) =
    mkNode (mkElement ns name lines kids) ctx :: descendKids ctx ns name lines [] kids.
Proof.
  cbn [descend]. f_equal. generalize (@nil Element) as prev.
  induction kids as [|c kids IH]; intros prev; cbn [descendKids]; [done|].
  by rewrite IH.
Qed.

Lemma elem_of_descendKids n ctx ns name lines prev rest :
  n ∈ descendKids ctx ns name lines prev rest →
  ∃ c prev' next,
    c ∈ rest ∧ rev_append prev' (c :: next) = rev_append prev rest
    ∧ n ∈ descend (mkFrame ns name lines prev' next :: ctx) c.
Proof.
  revert prev. induction rest as [|c rest IH]; intros prev; cbn [descendKids].
  - intros H. by apply elem_of_nil in H.
  - intros [H|H]%elem_of_app.
    + exists c, prev, rest. split; [left|done].
    + destruct (IH _ H) as (c' & prev' & next & Hc & Heq & Hn).
      exists c', prev', next. split; [by right|done].
Qed.

Lemma descendKids_intro ctx ns name lines c next n k : ∀ prev rest,
  drop k rest = c :: next →
  n ∈ descend (mkFrame ns name lines (rev_append (take k rest) prev) next :: ctx) c →
  n ∈ descendKids ctx ns name lines prev rest.
Proof.
  induction k as [|k IH]; intros prev [|c' rest]; cbn; try done.
  - intros [= -> ->] Hn. apply elem_of_app. by left.
  - intros Hdrop Hn. apply elem_of_app. right. by apply IH.
Qed.

(** Every node of the traversal other than its root has its parent in the
    traversal. *)
Lemma descend_parent x : ∀ ctx n,
  n ∈ descend ctx x →
  n = mkNode x ctx ∨ ∃ p, parentElement n = Some p ∧ p ∈ descend ctx x.
Proof.
  induction x as [ns name lines kids IH] using Element_tree_ind.
  intros ctx n. rewrite descend_unfold.
  intros [->|Hn]%elem_of_cons; [by left|]. right.
  destruct (elem_of_descendKids _ _ _ _ _ _ _ Hn) as (c & prev' & next & Hc & Heq & Hn').
  rewrite Forall_forall in IH.
  destruct (IH c Hc _ _ Hn') as [->|(p & Hp & Hin)].
  - eexists. split; [reflexivity|]. unfold plug; cbn.
    rewrite Heq. cbn. left.
  - exists p. split; [done|]. right.
    cbn in Heq. apply (descendKids_intro _ _ _ _ c next p (length prev')).
    + rewrite <- Heq, rev_append_rev.
      rewrite drop_app_length'; [done|by rewrite length_rev].
    + rewrite <- Heq, !rev_append_rev, app_nil_r.
      rewrite take_app_length'; [|by rewrite length_rev].
      by rewrite rev_involutive.
Qed.

(** Every node of the traversal sits in the tree it was taken from. *)
Lemma descend_root x : ∀ ctx n,
  n ∈ descend ctx x → documentElement n = rootFrom x ctx.
Proof.
  induction x as [ns name lines kids IH] using Element_tree_ind.
  intros ctx n. rewrite descend_unfold.
  intros [->|Hn]%elem_of_cons; [done|].
  destruct (elem_of_descendKids _ _ _ _ _ _ _ Hn) as (c & prev' & next & Hc & Heq & Hn').
  rewrite Forall_forall in IH. rewrite (IH c Hc _ _ Hn'). cbn [rootFrom].
  unfold plug; cbn. by rewrite Heq.
Qed.

Lemma allNodes_documentElement doc n : n ∈ allNodes doc → documentElement n = doc.
Proof. apply descend_root. Qed.

Lemma allNodes_parent doc n p :
  n ∈ allNodes doc → parentElement n = Some p → p ∈ allNodes doc.
Proof.
  intros Hn Hp. destruct (descend_parent _ _ _ Hn) as [->|(p' & Hp' & Hin)].
  - discriminate.
  - rewrite Hp in Hp'. by injection Hp' as <-.
Qed.

Lemma allNodes_ancestry doc : ∀ n x prev,
  n ∈ allNodes doc → (x, prev) ∈ ancestry n →
  ∃ a, a ∈ allNodes doc ∧ self a = x.
Proof.
  intros [x0 ctx]. revert x0. induction ctx as [|f fs IH]; intros x0 x prev Hn.
  - intros [[= -> ->]|H]%elem_of_cons; [eauto|by apply elem_of_nil in H].
  - rewrite ancestry_link. intros [[= -> ->]|H]%elem_of_cons; [eauto|].
    cbn in H. eapply (IH (plug f x0)); [|exact H].
    eapply allNodes_parent; [exact Hn|reflexivity].
Qed.

Lemma elem_of_querySelectorAll doc e :
  e ∈ querySelectorAll doc ↔ e ∈ allNodes doc ∧ is_Some (sourceLines (self e)).
Proof.
  unfold querySelectorAll. rewrite list_elem_of_filter. unfold hasSourceLines.
  destruct (sourceLines (self e)); split; intros [? ?]; split; eauto; try done.
Qed.

(** ** One entry of the map *)


Lemma better_idem cur p : better (better cur p) p = better cur p.
Proof.
  unfold better. destruct cur as [old|].
  - destruct (length old <? length p)%nat eqn:H; [|by rewrite H].
    by rewrite Nat.ltb_irrefl.
  - by rewrite Nat.ltb_irrefl.
Qed.

Lemma assign_lookup (m : LineMap) i p j :
  assign m i p !! j = if decide (i = j) then better (m !! j) p else m !! j.
Proof.
  unfold assign, better. destruct (decide (i = j)) as [->|Hne].
  - destruct (m !! j) as [old|] eqn:Hj.
    + destruct (length old <? length p)%nat; [by rewrite lookup_insert_eq|done].
    + by rewrite lookup_insert_eq.
  - destruct (m !! i) as [old|]; [destruct (length old <? length p)%nat|];
      by rewrite ?lookup_insert_ne.
Qed.

Lemma foldl_assign_lookup p (lines : list Z) : ∀ (m : LineMap) j,
  foldl (fun m i => assign m i p) m lines !! j =
    if decide (j ∈ lines) then better (m !! j) p else m !! j.
Proof.
  induction lines as [|i lines IH]; intros m j; cbn [foldl].
  - destruct (decide _) as [H|]; [by apply elem_of_nil in H|done].
  - rewrite IH, assign_lookup.
    destruct (decide (i = j)) as [->|Hne].
    + rewrite (decide_True (P := j ∈ j :: lines)) by left.
      destruct (decide _); [apply better_idem|done].
    + destruct (decide (j ∈ lines)) as [Hin|Hnin].
      * by rewrite (decide_True (P := j ∈ i :: lines)) by by right.
      * rewrite (decide_False (P := j ∈ i :: lines)); [done|].
        intros [->|?]%elem_of_cons; done.
Qed.

Lemma forLines_lookup start end_ p (m : LineMap) j :
  forLines start end_ p m !! j =
    match start, end_ with
    | Some s, Some t => if decide (s ≤ j < t)%Z then better (m !! j) p else m !! j
    | _, _ => m !! j
    end.
Proof.
  destruct start as [s|], end_ as [t|]; cbn [forLines]; try done.
  rewrite foldl_assign_lookup.
  destruct (decide (j ∈ seqZ s (t - s))) as [Hin|Hnin];
    rewrite elem_of_seqZ in *; destruct (decide _); try done; lia.
Qed.

Lemma forLines_empty start end_ p (m : LineMap) :
  match start, end_ with
  | Some s, Some t => (t ≤ s)%Z
  | _, _ => True
  end →
  forLines start end_ p m = m.
Proof.
  destruct start as [s|], end_ as [t|]; cbn [forLines]; try done.
  intros H. rewrite seqZ_nil; [done|lia].
Qed.

(** ** One element, then all of them *)

Lemma dataset_readable x value :
  dataset x = Some (Some value) ↔ sourceLines x = Some value ∧ namespace x ≠ MathML.
Proof.
  unfold dataset. destruct (namespace x); split; try done.
  - intros [= ->]. by split.
  - by intros [-> _].
  - intros [= ->]. by split.
  - by intros [-> _].
  - by intros [_ ?].
Qed.

Lemma processElement_Normal m e value :
  dataset (self e) = Some (Some value) →
  processElement m e =
    Normal (forLines (parseRange value).1 (parseRange value).2 (pathOf e) m).
Proof. intros H. unfold processElement, readRange. by rewrite H. Qed.

Lemma processElement_inv m e m' :
  processElement m e = Normal m' →
  ∃ value, sourceLines (self e) = Some value
           ∧ m' = forLines (parseRange value).1 (parseRange value).2 (pathOf e) m.
Proof.
  unfold processElement, readRange.
  destruct (dataset (self e)) as [[value|]|] eqn:Hd; [|done..].
  apply dataset_readable in Hd as [Hv _].
  intros [= <-]. by exists value.
Qed.

Lemma processElement_readable m e m' :
  processElement m e = Normal m' → ∃ value, dataset (self e) = Some (Some value).
Proof.
  unfold processElement, readRange.
  destruct (dataset (self e)) as [[value|]|]; [|done..]. by exists value.
Qed.


Lemma processElement_lookup m e m' j :
  processElement m e = Normal m' →
  m' !! j = if decide (covers e j) then better (m !! j) (pathOf e) else m !! j.
Proof.
  intros (value & Hv & ->)%processElement_inv. rewrite forLines_lookup.
  destruct (parseRange value) as [[s|] [t|]] eqn:Hr; cbn [fst snd].
  - destruct (decide (s ≤ j < t)%Z) as [Hj|Hj].
    + rewrite decide_True; [done|]. by exists value, s, t.
    + rewrite decide_False; [done|].
      intros (v' & s' & t' & Hv' & Hr' & Hj'). congruence.
  - rewrite decide_False; [done|]. intros (v' & s' & t' & Hv' & Hr' & Hj'). congruence.
  - rewrite decide_False; [done|]. intros (v' & s' & t' & Hv' & Hr' & Hj'). congruence.
  - rewrite decide_False; [done|]. intros (v' & s' & t' & Hv' & Hr' & Hj'). congruence.
Qed.

Lemma forElements_cons e es m :
  forElements (e :: es) m = processElement m e ≫= forElements es.
Proof. reflexivity. Qed.

Lemma forElements_app es1 es2 m :
  forElements (es1 ++ es2) m = forElements es1 m ≫= forElements es2.
Proof.
  revert m. induction es1 as [|e es1 IH]; intros m; [done|].
  cbn [app]. rewrite !forElements_cons.
  destruct (processElement m e) as [m'|]; cbn; [apply IH|done].
Qed.

Lemma forElements_total es : ∀ m,
  Forall (fun e => ∃ value, dataset (self e) = Some (Some value)) es →
  ∃ m', forElements es m = Normal m'.
Proof.
  induction es as [|e es IH]; intros m Hes; [by exists m|].
  apply Forall_cons in Hes as [[value Hv] Hes].
  rewrite forElements_cons, (processElement_Normal _ _ _ Hv). cbn. by apply IH.
Qed.

Lemma forElements_readable es : ∀ m m',
  forElements es m = Normal m' →
  Forall (fun e => ∃ value, dataset (self e) = Some (Some value)) es.
Proof.
  induction es as [|e es IH]; intros m m'; [by constructor|].
  rewrite forElements_cons.
  destruct (processElement m e) as [m1|] eqn:He; [|done].
  intros Hes. cbn in Hes. constructor; [by eapply processElement_readable|by eapply IH].
Qed.

Lemma forElements_lookup es j : ∀ m m',
  forElements es m = Normal m' →
  m' !! j = foldl better (m !! j) (pathOf <$> filter (fun e => covers e j) es).
Proof.
  induction es as [|e es IH]; intros m m'.
  - by intros [= <-].
  - rewrite forElements_cons.
    destruct (processElement m e) as [m1|] eqn:He; [|done].
    intros Hes. cbn in Hes. rewrite (IH _ _ Hes), (processElement_lookup _ _ _ j He).
    rewrite filter_cons. by destruct (decide (covers e j)).
Qed.

Lemma buildLineMap_total doc :
  (∀ e, e ∈ querySelectorAll doc → namespace (self e) ≠ MathML) →
  ∃ m, buildLineMap doc = Normal m.
Proof.
  intros Hns. apply forElements_total, Forall_forall. intros e He.
  destruct (proj1 (elem_of_querySelectorAll _ _) He) as [_ [value Hv]].
  exists value. apply dataset_readable. split; [done|by apply Hns].
Qed.

Lemma buildLineMap_lookup doc m j :
  buildLineMap doc = Normal m →
  m !! j = foldl better None (pathOf <$> filter (fun e => covers e j) (querySelectorAll doc)).
Proof. intros H. by rewrite (forElements_lookup _ j _ _ H), lookup_empty. Qed.

(** ** The entry that survives a sequence of assignments *)

Lemma foldl_better_Some q ps :
  ∃ r, foldl better (Some q) ps = Some r
       ∧ (r = q ∨ r ∈ ps)
       ∧ (length q ≤ length r)%nat
       ∧ Forall (fun p => (length p ≤ length r)%nat) ps.
Proof.
  revert q. induction ps as [|p ps IH]; intros q; cbn [foldl].
  - exists q. repeat split; eauto.
  - unfold better at 2. destruct (length q <? length p)%nat eqn:Hlt.
    + apply Nat.ltb_lt in Hlt. destruct (IH p) as (r & -> & Hr & Hlen & Hall).
      exists r. repeat split; [|lia|by constructor].
      destruct Hr as [->|Hr]; right; [left|by right].
    + apply Nat.ltb_ge in Hlt. destruct (IH q) as (r & -> & Hr & Hlen & Hall).
      exists r. repeat split; [|lia|constructor; [lia|done]].
      destruct Hr as [->|Hr]; [by left|right; by right].
Qed.

Lemma foldl_better_keep q ps :
  Forall (fun p => (length p ≤ length q)%nat) ps → foldl better (Some q) ps = Some q.
Proof.
  induction 1 as [|p ps Hp Hps IH]; cbn [foldl]; [done|].
  unfold better at 2. by rewrite (proj2 (Nat.ltb_ge _ _) Hp).
Qed.




Lemma foldl_better_None ps : foldl better None ps = None → ps = [].
Proof.
  destruct ps as [|p ps]; [done|]. cbn [foldl better].
  destruct (foldl_better_Some p ps) as (r & -> & _). done.
Qed.

Lemma foldl_better_elem ps r :
  foldl better None ps = Some r →
  r ∈ ps ∧ Forall (fun p => (length p ≤ length r)%nat) ps.
Proof.
  destruct ps as [|p ps]; [done|]. cbn [foldl better].
  destruct (foldl_better_Some p ps) as (r' & -> & Hr & Hlen & Hall).
  intros [= ->]. split; [|by constructor].
  destruct Hr as [->|Hr]; [left|by right].
Qed.

(** The stored entry, read off the selected elements. *)
Lemma stored_sound doc m i p :
  buildLineMap doc = Normal m → m !! i = Some p →
  ∃ e, e ∈ querySelectorAll doc ∧ covers e i ∧ p = pathOf e.
Proof.
  intros Hm. rewrite (buildLineMap_lookup _ _ i Hm).
  intros [Hin _]%foldl_better_elem.
  apply list_elem_of_fmap in Hin as (e & -> & [He Hsel]%list_elem_of_filter).
  by exists e.
Qed.





(** An element whose iteration leaves every map unchanged can be dropped
    from the selection. *)
Lemma forElements_skip es1 e es2 m :
  (∀ m0, processElement m0 e = Normal m0) →
  forElements (es1 ++ e :: es2) m = forElements (es1 ++ es2) m.
Proof.
  intros Hskip. rewrite !forElements_app.
  destruct (forElements es1 m) as [m1|]; [|done].
  change (forElements (e :: es2) m1 = forElements es2 m1).
  by rewrite forElements_cons, Hskip.
Qed.

(** ** The claims *)

(** C3, soundness: every line that is a key of the returned map lies in
    the half-open range [start, end) parsed from the attribute of some
    selected element, and the stored path is the path computed for that
    element. *)
Theorem soundness doc m i p :
  buildLineMap doc = Normal m → m !! i = Some p →
  ∃ e value s t,
    e ∈ querySelectorAll doc
    ∧ sourceLines (self e) = Some value
    ∧ parseRange value = (Some s, Some t)
    ∧ (s ≤ i < t)%Z
    ∧ p = pathOf e.
Proof.
  intros Hm Hp.
  destruct (stored_sound _ _ _ _ Hm Hp) as (e & He & (value & s & t & Hv & Hr & Hi) & ->).
  by exists e, value, s, t.
Qed.

Lemma soundness_witness :
  ∃ e value s t,
    e ∈ querySelectorAll Samples.nested_doc
    ∧ sourceLines (self e) = Some value
    ∧ parseRange value = (Some s, Some t)
    ∧ (s ≤ 3 < t)%Z
    ∧ [mkStep "div" 0; mkStep "span" 0] = pathOf e.
Proof.
  apply (soundness Samples.nested_doc (Samples.resultOf Samples.nested_doc) 3).
  - vm_compute. reflexivity.
  - vm_compute. reflexivity.
Defined.

Lemma ancestryFrom_last ctx : ∀ x,
  ancestryFrom x ctx = dropRoot (ancestryFrom x ctx) ++ [(rootFrom x ctx, [])].
Proof.
  induction ctx as [|f fs IH]; intros x; [done|].
  cbn [ancestryFrom rootFrom]. pose proof (IH (plug f x)) as Hup.
  destruct (ancestryFrom (plug f x) fs) as [|a up]; [cbn in Hup; discriminate|].
  change (dropRoot (?h :: a :: up)) with (h :: dropRoot (a :: up)).
  cbn [app]. by rewrite <- Hup.
Qed.

Lemma belowBody_dropRoot chain :
  Exists (fun a => tagName a.1 = "BODY") chain →
  belowBody (dropRoot chain) = belowBody chain.
Proof.
  induction chain as [|[x prev] up IH]; [done|]. intros Hex.
  destruct up as [|b up].
  - apply Exists_cons in Hex as [Hx|Hex]; [|by apply Exists_nil in Hex].
    cbn in Hx. cbn [dropRoot belowBody]. by rewrite decide_True.
  - change (dropRoot ((x, prev) :: b :: up)) with ((x, prev) :: dropRoot (b :: up)).
    cbn [belowBody]. destruct (decide (tagName x = "BODY")) as [|Hx]; [done|].
    rewrite IH; [done|]. by apply Exists_cons in Hex as [?|?].
Qed.

Lemma belowBody_all chain :
  ¬ Exists (fun a => tagName a.1 = "BODY") chain → belowBody chain = chain.
Proof.
  induction chain as [|[x prev] up IH]; [done|]. intros Hno. cbn [belowBody].
  rewrite decide_False by (intros Hx; apply Hno; by left).
  rewrite IH; [done|]. intros Hex. apply Hno. by right.
Qed.

(** C5, structural path (amended): the path computed for an element by the
    upward walk over parent links is the list, outermost first, of the
    steps of the element and its ancestors up to, and without, the nearest
    BODY, each step holding the lowercased tag name and the number of
    preceding siblings with the same tag name.  For an element inside BODY
    this leaves out the document element; for an element with no BODY above
    it the walk ends at the document element, whose step comes first in the
    path.  When the element's iteration returns, this is the path it has
    assigned. *)
Theorem structural_path e :
  pathOf e = specPath e
  ∧ (insideBody e → pathOf e = rootExcludedPath e)
  ∧ (¬ insideBody e →
     pathOf e =
       mkStep (Str.toLowerCase (tagName (documentElement e))) 0 :: rootExcludedPath e)
  ∧ (∀ m m' value,
       sourceLines (self e) = Some value →
       processElement m e = Normal m' →
       m' = forLines (parseRange value).1 (parseRange value).2 (specPath e) m).
Proof.
  split; [apply pathOf_spec|]. split; [|split].
  - intros Hin. rewrite pathOf_spec. unfold specPath, rootExcludedPath.
    by rewrite belowBody_dropRoot.
  - intros Hout. rewrite pathOf_spec. unfold specPath, rootExcludedPath, insideBody in *.
    rewrite (belowBody_all _ Hout).
    assert (¬ Exists (fun a => tagName a.1 = "BODY") (dropRoot (ancestry e))) as Hout'.
    { intros Hex. apply Hout. unfold ancestry. rewrite ancestryFrom_last.
      apply Exists_app. by left. }
    rewrite (belowBody_all _ Hout'). unfold ancestry, documentElement.
    rewrite ancestryFrom_last at 1. by rewrite fmap_app, reverse_app.
  - intros m m' value Hv (value' & Hv' & ->)%processElement_inv.
    rewrite <- pathOf_spec. congruence.
Qed.

Lemma structural_path_witness :
  pathOf (Samples.selected Samples.tie_doc 2) =
    [mkStep "div" 0; mkStep "p" 1; mkStep "span" 0]
  ∧ pathOf (Samples.selected Samples.head_doc 0) =
      mkStep "html" 0 :: rootExcludedPath (Samples.selected Samples.head_doc 0).
Proof.
  split.
  - destruct (structural_path (Samples.selected Samples.tie_doc 2)) as (_ & Hin & _).
    rewrite Hin; [vm_compute; reflexivity|].
    apply Exists_cons. right. apply Exists_cons. right. apply Exists_cons. right.
    apply Exists_cons. left. vm_compute. reflexivity.
  - destruct (structural_path (Samples.selected Samples.head_doc 0)) as (_ & _ & Hout & _).
    apply Hout. intros Hex. vm_compute in Hex.
    repeat (apply Exists_cons in Hex as [Hex|Hex]; [discriminate|]).
    by apply Exists_nil in Hex.
Defined.

(** C5 as stated fails: an annotated element of the head has no BODY above
    it, and its path starts with the step of the document element, which the
    claim leaves out. *)
Lemma structural_path_counterexample :
  Samples.selected Samples.head_doc 0 ∈ querySelectorAll Samples.head_doc
  ∧ pathOf (Samples.selected Samples.head_doc 0)
    = [mkStep "html" 0; mkStep "head" 0; mkStep "meta" 0]
  ∧ rootExcludedPath (Samples.selected Samples.head_doc 0)
    = [mkStep "head" 0; mkStep "meta" 0]
  ∧ pathOf (Samples.selected Samples.head_doc 0)
    ≠ rootExcludedPath (Samples.selected Samples.head_doc 0)
  ∧ buildLineMap Samples.head_doc
    = Normal {[ 0%Z := [mkStep "html" 0; mkStep "head" 0; mkStep "meta" 0] ]}.
Proof.
  split; [apply (list_elem_of_lookup_2 _ 0%nat); by vm_compute|].
  split; [by vm_compute|]. split; [by vm_compute|].
  split; [vm_compute; congruence|]. by vm_compute.
Qed.

(** C6, empty range: an element whose range can be read and parses to
    bounds with start >= end leaves the map as it is, so the result is the
    one built without that element; an element with range (5,5) is such an
    element. *)
Theorem empty_range doc e value s t before_e after_e :
  querySelectorAll doc = before_e ++ e :: after_e →
  dataset (self e) = Some (Some value) →
  parseRange value = (Some s, Some t) →
  (s >= t)%Z →
  (∀ m, processElement m e = Normal m)
  ∧ buildLineMap doc = forElements (before_e ++ after_e) ∅.
Proof.
  intros Hsel Hv Hr Hge.
  assert (∀ m, processElement m e = Normal m) as Hskip.
  { intros m. rewrite (processElement_Normal _ _ _ Hv), Hr. cbn [fst snd].
    rewrite forLines_empty; [done|lia]. }
  split; [done|]. unfold buildLineMap. rewrite Hsel. by apply forElements_skip.
Qed.

Lemma empty_range_witness :
  (∀ m, processElement m (Samples.selected Samples.empty_range_doc 0) = Normal m)
  ∧ buildLineMap Samples.empty_range_doc =
      forElements [Samples.selected Samples.empty_range_doc 1] ∅.
Proof.
  apply (empty_range Samples.empty_range_doc
           (Samples.selected Samples.empty_range_doc 0) "5 5" 5 5
           [] [Samples.selected Samples.empty_range_doc 1]).
  - vm_compute. reflexivity.
  - vm_compute. reflexivity.
  - vm_compute. reflexivity.
  - lia.
Defined.

(** C7, empty input: when no element of the document carries the
    attribute, the function returns the empty map and raises nothing. *)
Theorem empty_input doc :
  (∀ e, e ∈ allNodes doc → sourceLines (self e) = None) →
  buildLineMap doc = Normal ∅.
Proof.
  intros Hnone. unfold buildLineMap.
  destruct (querySelectorAll doc) as [|e es] eqn:Hsel; [done|].
  assert (e ∈ querySelectorAll doc) as He by (rewrite Hsel; left).
  apply elem_of_querySelectorAll in He as [He [value Hv]].
  rewrite (Hnone e He) in Hv. discriminate.
Qed.

Lemma empty_input_witness : buildLineMap Samples.empty_doc = Normal ∅.
Proof.
  apply empty_input. intros e He.
  vm_compute in He.
  repeat (apply elem_of_cons in He as [->|He]; [reflexivity|]).
  by apply elem_of_nil in He.
Defined.











Lemma belowBody_elem x prev chain :
  (x, prev) ∈ belowBody chain → (x, prev) ∈ chain ∧ tagName x ≠ "BODY".
Proof.
  induction chain as [|[y prev'] chain IH]; cbn [belowBody].
  - intros H. by apply elem_of_nil in H.
  - destruct (decide (tagName y = "BODY")) as [|Hne].
    + intros H. by apply elem_of_nil in H.
    + intros [[= -> ->]|H]%elem_of_cons; [split; [left|done]|].
      destruct (IH H) as [Hin Hx]. split; [by right|done].
Qed.

Lemma tag_not_body x :
  (namespace x ≠ HTML → Str.toLowerCase (localName x) ≠ "body") →
  tagName x ≠ "BODY" → Str.toLowerCase (tagName x) ≠ "body".
Proof.
  unfold tagName. destruct (namespace x); intros Hforeign Hne.
  - intros H. by apply Hne, StrFacts.lower_upper_body.
  - by apply Hforeign.
  - by apply Hforeign.
Qed.

Lemma pathOf_steps doc e st :
  e ∈ allNodes doc → st ∈ pathOf e →
  ∃ a, a ∈ allNodes doc ∧ tagName (self a) ≠ "BODY"
       ∧ tag st = Str.toLowerCase (tagName (self a)).
Proof.
  intros He. rewrite pathOf_spec. unfold specPath.
  rewrite elem_of_reverse.
  intros ([x prev] & -> & [Hin Hne]%belowBody_elem)%list_elem_of_fmap.
  destruct (allNodes_ancestry _ _ _ _ He Hin) as (a & Ha & <-).
  by exists a.
Qed.

(** C9, path normalization: in the returned map every step of every stored
    path has a lowercase tag, and no step has the tag [body], for the
    documents the HTML parser builds (it never gives the name [body] to an
    element outside the HTML namespace). *)
Theorem path_normalized doc m i p st :
  foreignNamesParsed doc →
  buildLineMap doc = Normal m → m !! i = Some p → st ∈ p →
  Str.lowercase (tag st) = true ∧ tag st ≠ "body".
Proof.
  intros Hparsed Hm Hp Hst.
  destruct (stored_sound _ _ _ _ Hm Hp) as (e & [He _]%elem_of_querySelectorAll & _ & ->).
  destruct (pathOf_steps _ _ _ He Hst) as (a & Ha & Hne & ->).
  split; [apply StrFacts.toLowerCase_lowercase|].
  apply tag_not_body; [|done].
  unfold foreignNamesParsed in Hparsed. rewrite Forall_forall in Hparsed. by apply Hparsed.
Qed.

Lemma path_normalized_witness :
  Str.lowercase "foreignobject" = true ∧ "foreignobject" ≠ "body".
Proof.
  apply (path_normalized Samples.svg_doc (Samples.resultOf Samples.svg_doc) 0
           [mkStep "div" 0; mkStep "svg" 0; mkStep "foreignobject" 0]
           (mkStep "foreignobject" 0)).
  - apply (bool_decide_unpack _). vm_compute. exact I.
  - vm_compute. reflexivity.
  - vm_compute. reflexivity.
  - apply (list_elem_of_lookup_2 _ 2%nat). reflexivity.
Defined.

(** C10, editor lookup: [editorForId] returns an editor of the workspace
    whose id is the requested one when there is such an editor, and
    [undefined] when there is none. *)
Theorem editorForId_lookup editors editorId :
  ((∃ e, e ∈ editors ∧ Workspace.id e = editorId) →
   ∃ found, Workspace.editorForId editors editorId = Some found
            ∧ found ∈ editors ∧ Workspace.id found = editorId)
  ∧ ((∀ e, e ∈ editors → Workspace.id e ≠ editorId) →
     Workspace.editorForId editors editorId = None).
Proof.
  induction editors as [|editor rest [IHsome IHnone]]; cbn [Workspace.editorForId].
  - split; [|done]. intros (e & He & _). by apply elem_of_nil in He.
  - destruct (decide (Workspace.id editor = editorId)) as [Heq|Hne]; split.
    + intros _. exists editor. repeat split; [left|done].
    + intros Hall. exfalso. apply (Hall editor); [left|done].
    + intros (e & [->|He]%elem_of_cons & Hid); [done|].
      destruct IHsome as (found & Hf & Hin & Hid'); [by exists e|].
      exists found. repeat split; [done|by right|done].
    + intros Hall. apply IHnone. intros e He. apply Hall. by right.
Qed.

Lemma editorForId_lookup_witness :
  (∃ found,
     Workspace.editorForId
       [Workspace.mkTextEditor 4 "a.md"; Workspace.mkTextEditor 7 "b.md"] 7 = Some found
     ∧ found ∈ [Workspace.mkTextEditor 4 "a.md"; Workspace.mkTextEditor 7 "b.md"]
     ∧ Workspace.id found = 7%Z)
  ∧ Workspace.editorForId [Workspace.mkTextEditor 4 "a.md"] 7 = None.
Proof.
  split.
  - apply (editorForId_lookup
             [Workspace.mkTextEditor 4 "a.md"; Workspace.mkTextEditor 7 "b.md"] 7).
    exists (Workspace.mkTextEditor 7 "b.md"). split; [|reflexivity].
    apply (list_elem_of_lookup_2 _ 1%nat). reflexivity.
  - apply (editorForId_lookup [Workspace.mkTextEditor 4 "a.md"] 7).
    intros e He%list_elem_of_singleton. rewrite He. vm_compute. congruence.
Defined.

(** * Further properties of the line map *)

Lemma foldl_better_split ps r : ∀ cur,
  foldl better cur ps = Some r →
  (cur = Some r ∧ Forall (fun q => (length q ≤ length r)%nat) ps)
  ∨ ∃ l1 l2,
      ps = l1 ++ r :: l2 ∧ shorterThan (length r) cur
      ∧ Forall (fun q => (length q < length r)%nat) l1
      ∧ Forall (fun q => (length q ≤ length r)%nat) l2.
Proof.
  induction ps as [|q ps IH]; intros cur; cbn [foldl].
  - intros ->. left. by split.
  - intros [[Hb Hall]|(l1 & l2 & -> & Hs & H1 & H2)]%IH.
    + unfold better in Hb. destruct cur as [old|].
      * destruct (length old <? length q)%nat eqn:Hlt; injection Hb as ->.
        -- right. exists [], ps. apply Nat.ltb_lt in Hlt. by repeat split.
        -- left. apply Nat.ltb_ge in Hlt. split; [done|by constructor].
      * injection Hb as ->. right. exists [], ps. by repeat split.
    + right. exists (q :: l1), l2. split; [done|].
      unfold better, shorterThan in *. destruct cur as [old|].
      * destruct (length old <? length q)%nat eqn:Hlt.
        -- apply Nat.ltb_lt in Hlt. repeat split; [lia|constructor; [lia|done]|done].
        -- apply Nat.ltb_ge in Hlt. repeat split; [lia|constructor; [lia|done]|done].
      * repeat split; [constructor; [lia|done]|done].
Qed.

Lemma fmap_filter_split {A B} (f : A → B) (P : A → Prop) `{∀ x, Decision (P x)}
    (l : list A) r l2 : ∀ l1,
  f <$> filter P l = l1 ++ r :: l2 →
  ∃ b e a, l = b ++ e :: a ∧ P e ∧ f e = r
           ∧ f <$> filter P b = l1 ∧ f <$> filter P a = l2.
Proof.
  induction l as [|x l IH]; intros l1.
  - intros Hnil. by destruct l1.
  - rewrite filter_cons. destruct (decide (P x)) as [Hx|Hx].
    + rewrite fmap_cons. destruct l1 as [|y l1]; cbn [app].
      * intros [= <- <-]. exists [], x, l. by repeat split.
      * intros [= <- Heq]. destruct (IH _ Heq) as (b & e & a & -> & He & Hr & Hb & Ha).
        exists (x :: b), e, a. repeat split; try done.
        by rewrite filter_cons, decide_True, fmap_cons, Hb by done.
    + intros Heq. destruct (IH _ Heq) as (b & e & a & -> & He & Hr & Hb & Ha).
      exists (x :: b), e, a. repeat split; try done.
      by rewrite filter_cons, decide_False by done.
Qed.



(** X2: the stored path of a line is the path of a selected element that
    covers the line, such that every covering element before it in document
    order has a strictly shorter path and every covering element after it
    has a path no longer. *)
Theorem stored_first_longest doc m i p :
  buildLineMap doc = Normal m → m !! i = Some p →
  ∃ before_e e after_e,
    querySelectorAll doc = before_e ++ e :: after_e
    ∧ covers e i ∧ p = pathOf e
    ∧ (∀ c, c ∈ before_e → covers c i → (length (pathOf c) < length p)%nat)
    ∧ (∀ c, c ∈ after_e → covers c i → (length (pathOf c) ≤ length p)%nat).
Proof.
  intros Hm. rewrite (buildLineMap_lookup _ _ i Hm).
  intros [[? _]|(l1 & l2 & Heq & _ & H1 & H2)]%foldl_better_split; [done|].
  destruct (fmap_filter_split _ _ _ _ _ _ Heq) as (b & e & a & Hsel & He & <- & <- & <-).
  exists b, e, a. repeat split; try done.
  - intros c Hc Hcov. rewrite Forall_forall in H1. apply H1.
    apply list_elem_of_fmap. exists c. split; [done|]. by apply list_elem_of_filter.
  - intros c Hc Hcov. rewrite Forall_forall in H2. apply H2.
    apply list_elem_of_fmap. exists c. split; [done|]. by apply list_elem_of_filter.
Qed.

Lemma stored_first_longest_witness :
  ∃ before_e e after_e,
    querySelectorAll Samples.tie_doc = before_e ++ e :: after_e
    ∧ covers e 2
    ∧ [mkStep "div" 0; mkStep "p" 1; mkStep "span" 0] = pathOf e
    ∧ (∀ c, c ∈ before_e → covers c 2 → (length (pathOf c) < 3)%nat)
    ∧ (∀ c, c ∈ after_e → covers c 2 → (length (pathOf c) ≤ 3)%nat).
Proof.
  apply (stored_first_longest Samples.tie_doc (Samples.resultOf Samples.tie_doc) 2).
  - vm_compute. reflexivity.
  - vm_compute. reflexivity.
Defined.

(** X3: running the loop over further elements never removes an entry and
    never replaces it by a shorter path. *)
Theorem entries_grow es m m' i p :
  forElements es m = Normal m' → m !! i = Some p →
  ∃ p', m' !! i = Some p' ∧ (length p ≤ length p')%nat.
Proof.
  intros Hm Hp. rewrite (forElements_lookup _ i _ _ Hm), Hp.
  destruct (foldl_better_Some p (pathOf <$> filter (fun e => covers e i) es))
    as (r & -> & _ & Hlen & _).
  by exists r.
Qed.

Lemma entries_grow_witness :
  ∃ p', ({[ 2%Z := [mkStep "div" 0; mkStep "span" 0];
            3%Z := [mkStep "div" 0; mkStep "span" 0] ]} : LineMap) !! 2%Z = Some p'
        ∧ (1 ≤ length p')%nat.
Proof.
  apply (entries_grow [Samples.selected Samples.nested_doc 1]
           {[ 2%Z := [mkStep "div" 0] ]} _ 2 [mkStep "div" 0]).
  - vm_compute. reflexivity.
  - vm_compute. reflexivity.
Defined.

(** X4: the returned map is saturated: running the element loop once more,
    starting from the returned map, changes nothing. *)
Theorem rerun_stable doc m :
  buildLineMap doc = Normal m →
  forElements (querySelectorAll doc) m = Normal m.
Proof.
  intros Hm.
  destruct (forElements_total (querySelectorAll doc) m) as [m' Hm'].
  { by eapply forElements_readable. }
  rewrite Hm'. f_equal. apply map_eq. intros i.
  rewrite (forElements_lookup _ i _ _ Hm'), (buildLineMap_lookup _ _ i Hm).
  destruct (foldl better None _) as [r|] eqn:Hr.
  - apply foldl_better_elem in Hr as [_ Hall]. by apply foldl_better_keep.
  - apply foldl_better_None in Hr. by rewrite Hr.
Qed.

Lemma rerun_stable_witness :
  forElements (querySelectorAll Samples.tie_doc) (Samples.resultOf Samples.tie_doc)
  = Normal (Samples.resultOf Samples.tie_doc).
Proof. apply rerun_stable. vm_compute. reflexivity. Defined.

(** X5: below BODY, the path of an element is the path of its parent
    followed by one step: the element's lowercased tag name and the number
    of its preceding siblings with the same tag name. *)
Theorem path_extends_parent e parent :
  parentElement e = Some parent → tagName (self e) ≠ "BODY" →
  pathOf e =
    pathOf parent ++
    [mkStep (Str.toLowerCase (tagName (self e)))
            (length (filter (fun s => tagName s = tagName (self e)) (previousSiblings e)))].
Proof.
  intros Hp Hne. rewrite !pathOf_spec. unfold specPath.
  rewrite (ancestry_link e), Hp. cbn [belowBody].
  rewrite decide_False by done. by rewrite fmap_cons, reverse_cons.
Qed.

Lemma path_extends_parent_witness :
  pathOf (Samples.selected Samples.tie_doc 2) =
    pathOf (Samples.selected Samples.tie_doc 1) ++ [mkStep "span" 0].
Proof.
  apply (path_extends_parent (Samples.selected Samples.tie_doc 2)
           (Samples.selected Samples.tie_doc 1)).
  - vm_compute. reflexivity.
  - vm_compute. congruence.
Defined.

Lemma rev_append_reverse {A} (b l : list A) : rev_append b l = reverse b ++ l.
Proof. by rewrite rev_append_rev, rev_alt. Qed.

Lemma count_before {A} (P : A → Prop) `{∀ x, Decision (P x)} (r1 r2 l1 l2 : list A) x1 x2 :
  r1 ++ x1 :: l1 = r2 ++ x2 :: l2 → P x1 →
  (length r1 < length r2)%nat →
  (length (filter P r1) < length (filter P r2))%nat.
Proof.
  intros Heq H1 Hlt.
  assert (take (length r1) r2 = r1) as Ht.
  { rewrite <- (take_app_le r2 (x2 :: l2)) by lia. by rewrite <- Heq, take_app_length. }
  assert (r2 !! length r1 = Some x1) as Hx.
  { rewrite <- (lookup_app_l r2 (x2 :: l2)) by done.
    rewrite <- Heq. by apply list_lookup_middle. }
  rewrite <- (take_drop (length r1) r2), Ht, (drop_S _ _ _ Hx).
  rewrite filter_app, filter_cons, decide_True by done.
  rewrite length_app. cbn. lia.
Qed.

Lemma same_position {A} (P : A → Prop) `{∀ x, Decision (P x)} (b1 b2 a1 a2 : list A) x1 x2 :
  rev_append b1 (x1 :: a1) = rev_append b2 (x2 :: a2) →
  P x1 → P x2 →
  length (filter P b1) = length (filter P b2) →
  b1 = b2 ∧ x1 = x2 ∧ a1 = a2.
Proof.
  rewrite !rev_append_reverse. intros Heq H1 H2 Hcount.
  assert (length (filter P (reverse b1)) = length (filter P (reverse b2))) as Hcount'.
  { by rewrite !filter_reverse, !length_reverse. }
  assert (length (reverse b1) = length (reverse b2)) as Hlen.
  { destruct (Nat.lt_trichotomy (length (reverse b1)) (length (reverse b2)))
      as [Hlt|[Heq'|Hlt]]; [|done|]; exfalso.
    - pose proof (count_before P _ _ _ _ _ _ Heq H1 Hlt). lia.
    - symmetry in Heq. pose proof (count_before P _ _ _ _ _ _ Heq H2 Hlt). lia. }
  apply app_inj_1 in Heq as [Hb [= -> ->]]; [|done].
  repeat split. by rewrite <- (reverse_involutive b1), Hb, reverse_involutive.
Qed.

Lemma belowBody_nil x ctx :
  belowBody (ancestryFrom x ctx) = [] → tagName x = "BODY".
Proof.
  destruct ctx; cbn [ancestryFrom belowBody]; by destruct (decide (tagName x = "BODY")).
Qed.

Lemma boundaryFrom_body x ctx : tagName x = "BODY" → boundaryFrom x ctx = mkNode x ctx.
Proof. intros H. destruct ctx; cbn [boundaryFrom]; by rewrite decide_True. Qed.

Lemma path_identifies_from doc : tagsSeparate doc → ∀ ctx1 x1 ctx2 x2,
  mkNode x1 ctx1 ∈ allNodes doc → mkNode x2 ctx2 ∈ allNodes doc →
  boundaryFrom x1 ctx1 = boundaryFrom x2 ctx2 →
  specStep <$> belowBody (ancestryFrom x1 ctx1) = specStep <$> belowBody (ancestryFrom x2 ctx2) →
  mkNode x1 ctx1 = mkNode x2 ctx2.
Proof.
  intros Hsep. induction ctx1 as [|f1 fs1 IH]; intros x1 ctx2 x2 H1 H2 Hb Hsteps.
  - cbn [ancestryFrom belowBody boundaryFrom] in Hsteps, Hb.
    destruct (decide (tagName x1 = "BODY")) as [Hx1|Hx1].
    + symmetry in Hsteps. apply fmap_nil_inv, belowBody_nil in Hsteps.
      by rewrite boundaryFrom_body in Hb.
    + destruct ctx2 as [|f2 fs2]; cbn [ancestryFrom belowBody boundaryFrom] in Hsteps, Hb;
        destruct (decide (tagName x2 = "BODY")) as [Hx2|Hx2]; try done.
      injection Hsteps as _ _ Hrest. symmetry in Hrest.
      apply fmap_nil_inv, belowBody_nil in Hrest.
      rewrite boundaryFrom_body in Hb by done. injection Hb as -> _. done.
  - cbn [ancestryFrom belowBody boundaryFrom] in Hsteps, Hb.
    destruct (decide (tagName x1 = "BODY")) as [Hx1|Hx1].
    + symmetry in Hsteps. apply fmap_nil_inv, belowBody_nil in Hsteps.
      by rewrite (boundaryFrom_body x2) in Hb.
    + destruct ctx2 as [|f2 fs2]; cbn [ancestryFrom belowBody boundaryFrom] in Hsteps, Hb;
        destruct (decide (tagName x2 = "BODY")) as [Hx2|Hx2]; try done.
      * injection Hsteps as _ _ Hrest.
        apply fmap_nil_inv, belowBody_nil in Hrest.
        rewrite boundaryFrom_body in Hb by done. injection Hb as Hb _.
        rewrite <- Hb in Hx2. done.
      * rewrite !fmap_cons in Hsteps. injection Hsteps as Htag Hidx Hrest.
        assert (mkNode (plug f1 x1) fs1 = mkNode (plug f2 x2) fs2) as Hparent.
        { apply IH; try done.
          - eapply allNodes_parent; [exact H1|done].
          - eapply allNodes_parent; [exact H2|done]. }
        injection Hparent as Hns Hname Hlines Hkids ->.
        unfold tagsSeparate in Hsep. rewrite Forall_forall in Hsep.
        specialize (Hsep _ H1). rewrite Forall_forall in Hsep.
        specialize (Hsep _ H2 Htag). cbn [self] in Hsep.
        cbn [fst snd previousSiblings above] in Hidx. rewrite <- Hsep in Hidx.
        destruct (same_position (fun s => tagName s = tagName x1) _ _ _ _ _ _ Hkids)
          as (Hbefore & -> & Hafter); [done|done|done|].
        destruct f1, f2; cbn in *; by subst.
Qed.

(** X6: among the elements that share the node where the upward walk ends
    (the same BODY, or the document element), the path identifies the
    element, provided lowercasing does not merge two tag names of the
    document: equal paths belong to the same element, and two different
    elements have different paths. *)
Theorem path_identifies doc e1 e2 :
  tagsSeparate doc →
  e1 ∈ allNodes doc → e2 ∈ allNodes doc →
  boundary e1 = boundary e2 →
  (pathOf e1 = pathOf e2 → e1 = e2)
  ∧ (e1 ≠ e2 → pathOf e1 ≠ pathOf e2).
Proof.
  intros Hsep H1 H2 Hb.
  assert (pathOf e1 = pathOf e2 → e1 = e2) as Hsame.
  { intros Hpath. destruct e1 as [x1 ctx1], e2 as [x2 ctx2].
    apply (path_identifies_from doc Hsep); try done.
    rewrite !pathOf_spec in Hpath. unfold specPath, ancestry in Hpath.
    cbn [self above] in Hpath. by apply (inj reverse) in Hpath. }
  split; [done|]. intros Hne Hpath. by apply Hne, Hsame.
Qed.

(** The two sibling paragraphs of a document are told apart by their
    paths; and the node reached from the second one over
    [previousElementSibling] is the first one. *)
Lemma path_identifies_witness :
  pathOf (Samples.selected Samples.siblings_doc 0)
  ≠ pathOf (Samples.selected Samples.siblings_doc 1)
  ∧ default (Samples.selected Samples.siblings_doc 1)
            (previousElementSibling (Samples.selected Samples.siblings_doc 1))
    = Samples.selected Samples.siblings_doc 0.
Proof.
  split.
  - apply (path_identifies Samples.siblings_doc
             (Samples.selected Samples.siblings_doc 0)
             (Samples.selected Samples.siblings_doc 1)).
    + apply (bool_decide_unpack _). vm_compute. exact I.
    + apply (list_elem_of_lookup_2 _ 4%nat). vm_compute. reflexivity.
    + apply (list_elem_of_lookup_2 _ 5%nat). vm_compute. reflexivity.
    + vm_compute. reflexivity.
    + vm_compute. congruence.
  - apply (path_identifies Samples.siblings_doc
             (default (Samples.selected Samples.siblings_doc 1)
                      (previousElementSibling (Samples.selected Samples.siblings_doc 1)))
             (Samples.selected Samples.siblings_doc 0)).
    + apply (bool_decide_unpack _). vm_compute. exact I.
    + apply (list_elem_of_lookup_2 _ 4%nat). vm_compute. reflexivity.
    + apply (list_elem_of_lookup_2 _ 4%nat). vm_compute. reflexivity.
    + vm_compute. reflexivity.
    + vm_compute. reflexivity.
Defined.

(** X7: on an empty map, an element whose range can be read and parses to
    bounds (s, t) within the safe-integer range contributes exactly the
    lines s, ..., t - 1, each with the element's path: t - s entries when
    s < t, none otherwise. *)
Theorem single_range e value s t :
  dataset (self e) = Some (Some value) →
  parseRange value = (Some s, Some t) →
  safeInteger s → safeInteger t →
  ∃ m : LineMap,
    processElement ∅ e = Normal m
    ∧ size m = Z.to_nat (t - s)
    ∧ ∀ i, m !! i = if decide (s ≤ i < t)%Z then Some (pathOf e) else None.
Proof.
  intros Hv Hr _ _. eexists. split; [by apply processElement_Normal|].
  rewrite Hr. cbn [fst snd].
  assert (∀ i, forLines (Some s) (Some t) (pathOf e) ∅ !! i
               = if decide (s ≤ i < t)%Z then Some (pathOf e) else None) as Hlook.
  { intros i. rewrite forLines_lookup, lookup_empty. by destruct (decide _). }
  split; [|done].
  rewrite <- size_dom, <- (length_seqZ s), <- (size_list_to_set (C := gset Z))
    by apply NoDup_seqZ.
  f_equal. apply set_eq. intros i.
  rewrite elem_of_dom, Hlook, elem_of_list_to_set, elem_of_seqZ.
  destruct (decide (s ≤ i < t)%Z); split; intros ?; try done; try lia.
Qed.

Lemma single_range_witness :
  ∃ m : LineMap,
    processElement ∅ (Samples.selected Samples.nested_doc 0) = Normal m
    ∧ size m = 10%nat
    ∧ ∀ i, m !! i =
           if decide (0 ≤ i < 10)%Z
           then Some (pathOf (Samples.selected Samples.nested_doc 0)) else None.
Proof.
  apply (single_range (Samples.selected Samples.nested_doc 0) "0 10" 0 10).
  - vm_compute. reflexivity.
  - vm_compute. reflexivity.
  - split; vm_compute; discriminate.
  - split; vm_compute; discriminate.
Defined.

Lemma split_token a :
  noSpace a → Str.split " " a = [a].
Proof.
  unfold noSpace. induction a as [|c a IH]; [done|]. cbn [Str.allChars Str.split].
  intros [Hc Ha]%andb_prop. apply negb_true_iff in Hc. rewrite Hc.
  by rewrite (IH Ha).
Qed.

Lemma split_tokens a rest :
  noSpace a → Str.split " " (a +:+ String " " rest) = a :: Str.split " " rest.
Proof.
  unfold noSpace. induction a as [|c a IH]; [done|].
  cbn [Str.allChars].
  intros [Hc Ha]%andb_prop. apply negb_true_iff in Hc.
  change (String c a +:+ String " " rest) with (String c (a +:+ String " " rest)).
  cbn [Str.split]. rewrite Hc. by rewrite (IH Ha).
Qed.

(** X8: the range is read from the first two space-separated tokens only:
    a single token leaves the end bound undefined, and tokens after the
    second are ignored. *)
Theorem parseRange_tokens a b rest :
  noSpace a → noSpace b →
  parseRange a = (Str.parseInt a, None)
  ∧ parseRange (a +:+ " " +:+ b) = (Str.parseInt a, Str.parseInt b)
  ∧ parseRange (a +:+ " " +:+ b +:+ " " +:+ rest) = (Str.parseInt a, Str.parseInt b).
Proof.
  intros Ha Hb. unfold parseRange. repeat split.
  - by rewrite split_token.
  - change (a +:+ " " +:+ b) with (a +:+ String " " b).
    by rewrite split_tokens, split_token.
  - change (a +:+ " " +:+ b +:+ " " +:+ rest) with (a +:+ String " " (b +:+ String " " rest)).
    by rewrite !split_tokens.
Qed.

Lemma parseRange_tokens_witness :
  parseRange "3" = (Some 3%Z, None)
  ∧ parseRange "3 8" = (Some 3%Z, Some 8%Z)
  ∧ parseRange "3 8 x 1" = (Some 3%Z, Some 8%Z).
Proof.
  apply (parseRange_tokens "3" "8" "x 1"); vm_compute; reflexivity.
Defined.

(** X9: when several editors of the workspace have the requested id,
    [editorForId] returns the first of them. *)
Theorem editorForId_first before_e e after_e editorId :
  Workspace.id e = editorId →
  (∀ x, x ∈ before_e → Workspace.id x ≠ editorId) →
  Workspace.editorForId (before_e ++ e :: after_e) editorId = Some e.
Proof.
  intros He. induction before_e as [|x l IH]; intros Hnone; cbn [app Workspace.editorForId].
  - by rewrite decide_True.
  - rewrite decide_False by (apply Hnone; left). apply IH. intros y Hy. apply Hnone. by right.
Qed.

Lemma editorForId_first_witness :
  Workspace.editorForId
    [Workspace.mkTextEditor 4 "a.md"; Workspace.mkTextEditor 7 "b.md";
     Workspace.mkTextEditor 7 "c.md"] 7
  = Some (Workspace.mkTextEditor 7 "b.md").
Proof.
  apply (editorForId_first [Workspace.mkTextEditor 4 "a.md"]
           (Workspace.mkTextEditor 7 "b.md") [Workspace.mkTextEditor 7 "c.md"] 7).
  - reflexivity.
  - intros x Hx%list_elem_of_singleton. rewrite Hx. vm_compute. congruence.
Defined.

(** * Properties of the style functions *)

Module StylesFacts.
Import Styles.

Lemma sapp_cons (x : ascii) (a b : string) : String x a +:+ b = String x (a +:+ b).
Proof. reflexivity. Qed.

Lemma sapp_nil_l (a : string) : "" +:+ a = a.
Proof. reflexivity. Qed.

Lemma sapp_assoc (a b c : string) : (a +:+ b) +:+ c = a +:+ (b +:+ c).
Proof. induction a as [|x a IH]; [done|]. by rewrite !sapp_cons, IH. Qed.

Lemma sapp_nil_r (a : string) : a +:+ "" = a.
Proof. induction a as [|x a IH]; [done|]. by rewrite sapp_cons, IH. Qed.

Lemma sapp_length (a b : string) :
  String.length (a +:+ b) = (String.length a + String.length b)%nat.
Proof. induction a as [|x a IH]; [done|]. rewrite sapp_cons. cbn. by rewrite IH. Qed.

Lemma startsWith_Some lit : ∀ s rest, startsWith lit s = Some rest → s = lit +:+ rest.
Proof.
  induction lit as [|a lit IH]; intros s rest; cbn [startsWith].
  - by intros [= ->].
  - destruct s as [|c s]; [done|].
    destruct (Ascii.eqb_spec a c) as [->|]; [|done].
    intros H%IH. by rewrite sapp_cons, H.
Qed.

Lemma startsWith_app lit rest : startsWith lit (lit +:+ rest) = Some rest.
Proof.
  induction lit as [|a lit IH]; [done|].
  rewrite sapp_cons. cbn [startsWith]. by rewrite Ascii.eqb_refl.
Qed.

Lemma occursIn_cons lit c s : occursIn lit s → occursIn lit (String c s).
Proof. intros (pre & post & ->). by exists (String c pre), post. Qed.

Lemma occursIn_app_l lit a s : occursIn lit s → occursIn lit (a +:+ s).
Proof.
  intros H. induction a as [|c a IH]; [by rewrite sapp_nil_l|].
  rewrite sapp_cons. by apply occursIn_cons.
Qed.

Lemma replaceFrom_absent lit repl s : ∀ prevWord,
  ¬ occursIn lit s → replaceFrom lit repl prevWord 0 s = s.
Proof.
  induction s as [|c s IH]; intros prevWord Hno; [done|]. cbn [replaceFrom].
  unfold matchAt. destruct (startsWith lit (String c s)) as [rest|] eqn:Hstart.
  - destruct Hno. exists "", rest. rewrite sapp_nil_l. by apply startsWith_Some.
  - rewrite IH; [done|]. intros H. by apply Hno, occursIn_cons.
Qed.

(** X10: a style sheet in which the selector does not occur comes back
    unchanged from the replacement. *)
Theorem replaceAll_absent lit repl s :
  ¬ occursIn lit s → replaceAll lit repl s = s.
Proof. apply replaceFrom_absent. Qed.

Lemma startsWith_separator lit c b : absentFrom c lit → ∀ a,
  startsWith lit (a +:+ String c b) = (fun r => r +:+ String c b) <$> startsWith lit a.
Proof.
  unfold absentFrom. induction lit as [|x lit IH]; intros Habs a; [done|].
  cbn [Str.allChars] in Habs. apply andb_prop in Habs as [Hx Habs].
  apply negb_true_iff in Hx. destruct a as [|y a].
  - rewrite sapp_nil_l. cbn [startsWith]. by rewrite Hx.
  - rewrite sapp_cons. cbn [startsWith]. destruct (Ascii.eqb x y); [by apply IH|done].
Qed.

Lemma headIsWord_separator r c b :
  isWordChar c = false → headIsWord (r +:+ String c b) = headIsWord r.
Proof. intros Hc. by destruct r. Qed.

Lemma matchAt_separator lit c b prevWord a :
  absentFrom c lit → isWordChar c = false →
  matchAt lit prevWord (a +:+ String c b) = matchAt lit prevWord a.
Proof.
  intros Habs Hc. unfold matchAt. rewrite startsWith_separator by done.
  destruct (startsWith lit a) as [r|]; [|done]. cbn [fmap option_fmap option_map].
  by rewrite headIsWord_separator.
Qed.

Lemma matchAt_length lit prevWord s :
  matchAt lit prevWord s = true → (String.length lit ≤ String.length s)%nat.
Proof.
  unfold matchAt. destruct (startsWith lit s) as [r|] eqn:Hs; [|done].
  intros _. apply startsWith_Some in Hs as ->. rewrite sapp_length. lia.
Qed.

Lemma replaceFrom_separator lit repl c b :
  lit ≠ "" → absentFrom c lit → isWordChar c = false →
  ∀ a prevWord skip,
    (skip ≤ String.length a)%nat →
    replaceFrom lit repl prevWord skip (a +:+ String c b)
    = replaceFrom lit repl prevWord skip a +:+ String c (replaceAll lit repl b).
Proof.
  intros Hlit Habs Hc. induction a as [|x a IH]; intros prevWord skip Hskip.
  - cbn in Hskip. assert (skip = 0%nat) as -> by lia.
    rewrite sapp_nil_l. cbn [replaceFrom].
    rewrite <- (sapp_nil_l (String c b)), matchAt_separator by done.
    unfold matchAt at 1. destruct lit; [done|]. cbn [startsWith].
    rewrite !sapp_nil_l. by rewrite Hc.
  - rewrite sapp_cons. cbn [replaceFrom]. cbn in Hskip. destruct skip as [|k].
    + rewrite <- sapp_cons, matchAt_separator by done.
      destruct (matchAt lit prevWord (String x a)) eqn:Hm.
      * apply matchAt_length in Hm. cbn in Hm.
        rewrite IH by lia. by rewrite sapp_assoc.
      * rewrite IH by lia. by rewrite sapp_cons.
    + apply IH. lia.
Qed.

(** X11: the replacement works on the two sides of a separator
    independently, for every separator that is not a word character and is
    not a character of the selector. *)
Theorem replaceAll_separator lit repl a c b :
  lit ≠ "" → absentFrom c lit → isWordChar c = false →
  replaceAll lit repl (a +:+ String c b)
  = replaceAll lit repl a +:+ String c (replaceAll lit repl b).
Proof.
  intros Hlit Habs Hc. unfold replaceAll at 1 2.
  apply replaceFrom_separator; try done. lia.
Qed.

Lemma replaceAll_separator_witness :
  replaceAll "atom-text-editor" "pre.editor-colors"
             ("atom-text-editor .a" +:+ String "," " x atom-text-editor")
  = replaceAll "atom-text-editor" "pre.editor-colors" "atom-text-editor .a"
    +:+ String "," (replaceAll "atom-text-editor" "pre.editor-colors" " x atom-text-editor").
Proof.
  apply (replaceAll_separator "atom-text-editor" "pre.editor-colors").
  - discriminate.
  - vm_compute. reflexivity.
  - vm_compute. reflexivity.
Defined.

Lemma occursIn_occursb lit s : occursIn lit s → occursb lit s = true.
Proof.
  intros (pre & post & ->). induction pre as [|c pre IH].
  - rewrite sapp_nil_l. destruct (lit +:+ post) eqn:Heq;
      cbn [occursb]; rewrite <- Heq, startsWith_app; done.
  - rewrite sapp_cons. cbn [occursb].
    by destruct (startsWith lit (String c (pre +:+ lit +:+ post))).
Qed.

Lemma lastIsWord_lastWordOr s : lastIsWord s = lastWordOr false s.
Proof.
  destruct s as [|c s]; [done|]. cbn [lastWordOr]. revert c.
  induction s as [|d s IH]; intros c; [done|]. cbn [lastWordOr]. by rewrite <- IH.
Qed.

Lemma lastWordOr_cons prevWord c s : lastWordOr prevWord (String c s) = lastIsWord (String c s).
Proof.
  cbn [lastWordOr]. revert c. induction s as [|d s IH]; intros c; [done|].
  cbn [lastWordOr]. by rewrite IH.
Qed.

Lemma init_last lit : lit ≠ "" → ∃ z, lit = initOf lit +:+ String z "".
Proof.
  induction lit as [|c lit IH]; [done|]. intros _. destruct lit as [|d lit].
  - by exists c.
  - destruct IH as [z Hz]; [done|]. exists z.
    change (String c (String d lit) = String c (initOf (String d lit) +:+ String z "")).
    by rewrite <- Hz.
Qed.

Lemma initOf_length lit : lit ≠ "" → S (String.length (initOf lit)) = String.length lit.
Proof.
  induction lit as [|c lit IH]; [done|]. intros _. destruct lit as [|d lit]; [done|].
  change (initOf (String c (String d lit))) with (String c (initOf (String d lit))).
  cbn [String.length]. by rewrite IH.
Qed.

Lemma startsWith_shorter lit : ∀ u v r,
  startsWith lit (u +:+ v) = Some r → (String.length lit ≤ String.length u)%nat →
  is_Some (startsWith lit u).
Proof.
  induction lit as [|x lit IH]; intros u v r; [by eexists|].
  destruct u as [|y u]; [cbn; lia|]. rewrite sapp_cons. cbn [startsWith String.length].
  destruct (Ascii.eqb x y); [|done]. intros H Hlen. eapply IH; [exact H|lia].
Qed.

Lemma replaceFrom_before lit repl post pre : ∀ prevWord,
  lit ≠ "" → ¬ occursIn lit (pre +:+ initOf lit) →
  replaceFrom lit repl prevWord 0 (pre +:+ lit +:+ post)
  = pre +:+ replaceFrom lit repl (lastWordOr prevWord pre) 0 (lit +:+ post).
Proof.
  induction pre as [|c pre IH]; intros prevWord Hlit Hno; [done|].
  rewrite !sapp_cons. cbn [replaceFrom lastWordOr].
  unfold matchAt. destruct (startsWith lit _) as [r|] eqn:Hs.
  - destruct Hno. destruct (init_last lit Hlit) as [z Hz].
    assert (String c (pre +:+ lit +:+ post)
            = (String c pre +:+ initOf lit) +:+ (String z "" +:+ post)) as Heq.
    { rewrite sapp_assoc, <- (sapp_assoc (initOf lit)), <- Hz. done. }
    rewrite Heq in Hs. apply startsWith_shorter in Hs as [r' Hr'].
    + exists "", r'. rewrite sapp_nil_l. by apply startsWith_Some.
    + rewrite sapp_length. cbn [String.length].
      pose proof (initOf_length lit Hlit). lia.
  - rewrite IH; [done|done|]. intros H. apply Hno. rewrite sapp_cons. by apply occursIn_cons.
Qed.

Lemma replaceFrom_skip lit repl v u : ∀ prevWord,
  replaceFrom lit repl prevWord (String.length u) (u +:+ v)
  = replaceFrom lit repl (lastWordOr prevWord u) 0 v.
Proof.
  induction u as [|c u IH]; intros prevWord; [done|].
  rewrite sapp_cons. cbn [String.length replaceFrom lastWordOr]. apply IH.
Qed.

Lemma matchAt_here lit prevWord post :
  wordEnds lit →
  matchAt lit prevWord (lit +:+ post) = negb prevWord && negb (headIsWord post).
Proof.
  intros [Hh Hl]. unfold matchAt. rewrite startsWith_app, Hh, Hl.
  by destruct prevWord, (headIsWord post).
Qed.

(** X12: in a style sheet where the selector occurs once, the occurrence
    is replaced exactly when it is not next to a word character on either
    side; a hyphen, a dot or a colon next to it does not protect it. *)
Theorem replaceAll_single lit repl pre post :
  wordEnds lit →
  ¬ occursIn lit (pre +:+ initOf lit) →
  ¬ occursIn lit (tailOf lit +:+ post) →
  replaceAll lit repl (pre +:+ lit +:+ post)
  = if negb (lastIsWord pre) && negb (headIsWord post)
    then pre +:+ repl +:+ post
    else pre +:+ lit +:+ post.
Proof.
  intros Hends Hpre Hpost.
  assert (lit ≠ "") as Hlit by (destruct Hends as [Hh _]; by destruct lit).
  unfold replaceAll. rewrite replaceFrom_before by done.
  rewrite <- lastIsWord_lastWordOr.
  destruct lit as [|a t]; [done|]. cbn [tailOf] in Hpost.
  rewrite (sapp_cons a t post). cbn [replaceFrom]. rewrite <- sapp_cons.
  rewrite matchAt_here by done.
  destruct (negb (lastIsWord pre) && negb (headIsWord post)); f_equal.
  - f_equal. replace (String.length (String a t) - 1)%nat with (String.length t)
      by (cbn; lia).
    rewrite replaceFrom_skip. apply replaceFrom_absent.
    intros H. by apply Hpost, occursIn_app_l.
  - rewrite sapp_cons. f_equal. by apply replaceFrom_absent.
Qed.

Lemma replaceAll_single_witness :
  replaceAll "atom-text-editor" "pre.editor-colors"
             (".my-" +:+ "atom-text-editor" +:+ "-x .b")
  = ".my-" +:+ "pre.editor-colors" +:+ "-x .b".
Proof.
  apply (replaceAll_single "atom-text-editor" "pre.editor-colors" ".my-"
           "-x .b").
  - split; vm_compute; reflexivity.
  - intros H%occursIn_occursb. vm_compute in H. discriminate.
  - intros H%occursIn_occursb. vm_compute in H. discriminate.
Defined.

Lemma replaceAll_absent_witness :
  replaceAll "atom-workspace" ":root" "atom-text-editor { color: red }"
  = "atom-text-editor { color: red }".
Proof.
  apply replaceAll_absent. intros H%occursIn_occursb. vm_compute in H. discriminate.
Defined.

Lemma filter_none {A} (P : A → Prop) `{∀ x, Decision (P x)} (l : list A) :
  (∀ x, x ∈ l → ¬ P x) → filter P l = [].
Proof.
  induction l as [|x l IH]; intros Hno; [done|].
  rewrite filter_cons, decide_False by (apply Hno; left).
  apply IH. intros y Hy. apply Hno. by right.
Qed.

(** X13: a syntax theme name that no loaded theme has (or no loaded themes
    at all) raises one warning that names it, and the styles fall back to
    the ones returned for the empty name. *)
Theorem syntax_theme_missing host name :
  name ≠ "" →
  (∀ themes t, loadedThemes host = Some themes → t ∈ themes → themeName t ≠ name) →
  getSyntaxTheme host name =
    ((getSyntaxTheme host "").1,
     [mkWarning "Failed to load syntax theme"
                ("Markdown-preview-plus couldn't find '" +:+ name +:+ "'")]).
Proof.
  intros Hname Hnone. unfold getSyntaxTheme at 1.
  rewrite decide_False by done. destruct (loadedThemes host) as [themes|] eqn:Hthemes.
  - rewrite filter_none; [done|]. intros t Ht. by apply (Hnone themes).
  - done.
Qed.

Lemma syntax_theme_missing_witness :
  getSyntaxTheme (sampleHost "" None) "solarized" =
    ((getSyntaxTheme (sampleHost "" None) "").1,
     [mkWarning "Failed to load syntax theme"
                "Markdown-preview-plus couldn't find 'solarized'"]).
Proof.
  apply (syntax_theme_missing (sampleHost "" None) "solarized").
  - discriminate.
  - intros themes t [= <-] Ht.
    repeat (apply elem_of_cons in Ht as [->|Ht]; [discriminate|]).
    by apply elem_of_nil in Ht.
Defined.

(** X14: when several loaded themes have the requested name, the style
    sheets of the first one are loaded and rewritten, and no warning is
    raised. *)
Theorem syntax_theme_first host name before_t t after_t :
  name ≠ "" →
  loadedThemes host = Some (before_t ++ t :: after_t) →
  themeName t = name →
  (∀ x, x ∈ before_t → themeName x ≠ name) →
  getSyntaxTheme host name =
    (processEditorStyles (loadStylesheet host <$> themeStylesheetPaths t), []).
Proof.
  intros Hname Hthemes Ht Hbefore. unfold getSyntaxTheme.
  rewrite decide_False, Hthemes by done.
  by rewrite filter_app, filter_none, filter_cons, decide_True by done.
Qed.

Lemma syntax_theme_first_witness :
  getSyntaxTheme (sampleHost "" None) "one-dark" = (["/* one-dark/index.less */"], []).
Proof.
  apply (syntax_theme_first (sampleHost "" None) "one-dark" []
           (mkTheme "one-dark" ["one-dark/index.less"]) [mkTheme "one-dark" ["shadow.less"]]).
  - discriminate.
  - reflexivity.
  - reflexivity.
  - intros x Hx. by apply elem_of_nil in Hx.
Defined.

(** X15: without the test hook, the styles for export (display off) are a
    sublist of the styles for display, in the same order, and both calls
    raise the same warnings. *)
Theorem export_within_display host :
  getStylesOverride host = None →
  sublist (getPreviewStyles host false).1 (getPreviewStyles host true).1
  ∧ (getPreviewStyles host false).2 = (getPreviewStyles host true).2.
Proof.
  intros Hnone. unfold getPreviewStyles. rewrite Hnone. cbn [fst snd]. split; [|done].
  apply sublist_inserts_l. cbn [app]. apply sublist_skip, sublist_cons. done.
Qed.

Lemma export_within_display_witness :
  sublist (getPreviewStyles (sampleHost "nope" None) false).1
          (getPreviewStyles (sampleHost "nope" None) true).1
  ∧ (getPreviewStyles (sampleHost "nope" None) false).2
    = (getPreviewStyles (sampleHost "nope" None) true).2.
Proof. apply export_within_display. reflexivity. Defined.

Lemma replaceFirstAsset_absent callback s :
  ¬ occursIn assetPrefix s → replaceFirstAsset callback s = Some s.
Proof.
  induction s as [|c s IH]; intros Hno; [done|]. cbn [replaceFirstAsset].
  unfold assetAt. destruct (startsWith assetPrefix (String c s)) as [r|] eqn:Hs.
  - destruct Hno. exists "", r. rewrite sapp_nil_l. by apply startsWith_Some.
  - cbn [mbind option_bind]. rewrite IH; [done|]. intros H. by apply Hno, occursIn_cons.
Qed.

(** X16: a style sheet without an asset reference is returned as it is,
    and nothing is read from disk. *)
Theorem css_without_asset host :
  ¬ occursIn assetPrefix (String.concat (String "010" "") (getPreviewStyles host false).1) →
  (getMarkdownPreviewCSS host).1
  = Some (String.concat (String "010" "") (getPreviewStyles host false).1).
Proof. intros Hno. unfold getMarkdownPreviewCSS. cbn [fst]. by apply replaceFirstAsset_absent. Qed.

Lemma css_without_asset_witness :
  (getMarkdownPreviewCSS (sampleHost "" (Some (fun _ => ["a { }"; "b { }"])))).1
  = Some (String.concat (String "010" "") ["a { }"; "b { }"]).
Proof.
  apply (css_without_asset (sampleHost "" (Some (fun _ => ["a { }"; "b { }"])))).
  intros H%occursIn_occursb. vm_compute in H. discriminate.
Defined.

Lemma replaceFirstAsset_before callback tail pre :
  ¬ occursIn assetPrefix (pre +:+ initOf assetPrefix) →
  replaceFirstAsset callback (pre +:+ assetPrefix +:+ tail)
  = (fun t => pre +:+ t) <$> replaceFirstAsset callback (assetPrefix +:+ tail).
Proof.
  induction pre as [|c pre IH]; intros Hno.
  - rewrite sapp_nil_l.
    destruct (replaceFirstAsset callback (assetPrefix +:+ tail)); reflexivity.
  - rewrite sapp_cons. cbn [replaceFirstAsset]. unfold assetAt at 1.
    destruct (startsWith assetPrefix (String c _)) as [r|] eqn:Hs.
    + destruct Hno. destruct (init_last assetPrefix) as [z Hz]; [done|].
      assert (String c (pre +:+ assetPrefix +:+ tail)
              = (String c pre +:+ initOf assetPrefix) +:+ (String z "" +:+ tail)) as Heq.
      { rewrite sapp_assoc, <- (sapp_assoc (initOf assetPrefix)), <- Hz. done. }
      rewrite Heq in Hs. apply startsWith_shorter in Hs as [r' Hr'].
      * exists "", r'. rewrite sapp_nil_l. by apply startsWith_Some.
      * rewrite sapp_length. cbn [String.length].
        assert (assetPrefix ≠ "") as Hne by done.
        pose proof (initOf_length assetPrefix Hne). lia.
    + cbn [mbind option_bind]. rewrite IH.
      * destruct (replaceFirstAsset callback (assetPrefix +:+ tail)); reflexivity.
      * intros H. apply Hno. rewrite sapp_cons. by apply occursIn_cons.
Qed.

Lemma captureGreedy_line line rest :
  oneLine line → absentFrom ")" line → endsLine rest →
  captureGreedy (line +:+ rest) = None.
Proof.
  unfold oneLine, absentFrom. induction line as [|c line IH]; intros Hone Habs Hend.
  - rewrite sapp_nil_l. destruct rest as [|c r]; [done|]. cbn in Hend. cbn [captureGreedy].
    by rewrite Hend.
  - cbn [Str.allChars] in Hone, Habs.
    apply andb_prop in Hone as [Hc Hone]. apply andb_prop in Habs as [Hp Habs].
    apply negb_true_iff in Hc. apply negb_true_iff in Hp.
    rewrite sapp_cons. cbn [captureGreedy]. by rewrite Hc, IH, Hp.
Qed.

Lemma captureGreedy_last name after :
  oneLine name → captureGreedy after = None →
  captureGreedy (name +:+ String ")" after) = Some (name, after).
Proof.
  unfold oneLine. intros Hone Hafter. induction name as [|c name IH].
  - rewrite sapp_nil_l. cbn [captureGreedy]. by rewrite Hafter.
  - cbn [Str.allChars] in Hone. apply andb_prop in Hone as [Hc Hone].
    apply negb_true_iff in Hc. rewrite sapp_cons. cbn [captureGreedy].
    by rewrite Hc, IH.
Qed.

(** X17: only the first asset reference is inlined.  Its name runs to the
    last closing parenthesis of its line; the text around the match,
    including later references, is kept as it is; when the asset cannot be
    read the function throws. *)
Theorem first_asset_inlined host pre name line rest :
  String.concat (String "010" "") (getPreviewStyles host false).1
  = pre +:+ assetPrefix +:+ name +:+ String ")" (line +:+ rest) →
  ¬ occursIn assetPrefix (pre +:+ initOf assetPrefix) →
  oneLine name → oneLine line → absentFrom ")" line → endsLine rest →
  (getMarkdownPreviewCSS host).1
  = (fun url => pre +:+ url +:+ line +:+ rest) <$> inlineAsset host name.
Proof.
  intros Hcss Hpre Hname Hline Hparen Hrest.
  unfold getMarkdownPreviewCSS. cbn [fst]. rewrite Hcss.
  rewrite replaceFirstAsset_before by done.
  destruct assetPrefix as [|a p] eqn:Hp; [done|].
  rewrite (sapp_cons a p). cbn [replaceFirstAsset]. rewrite <- sapp_cons, <- Hp.
  unfold assetAt. rewrite startsWith_app. cbn [mbind option_bind].
  rewrite captureGreedy_last; [|done|by apply captureGreedy_line].
  by destruct (inlineAsset host name).
Qed.

Lemma first_asset_inlined_witness :
  (getMarkdownPreviewCSS
     (sampleHost ""
        (Some (fun _ => ["a { background: url(atom://markdown-preview-plus/assets/a.png) }";
                         "b { background: url(atom://markdown-preview-plus/assets/b.png) }"])))).1
  = Some ("a { background: " +:+ "url('data:image/jpeg;base64,base64:PNG')" +:+ " }"
          +:+ String "010" "b { background: url(atom://markdown-preview-plus/assets/b.png) }").
Proof.
  apply (first_asset_inlined
           (sampleHost ""
              (Some (fun _ => ["a { background: url(atom://markdown-preview-plus/assets/a.png) }";
                               "b { background: url(atom://markdown-preview-plus/assets/b.png) }"])))
           "a { background: " "a.png" " }"
           (String "010" "b { background: url(atom://markdown-preview-plus/assets/b.png) }")).
  - vm_compute. reflexivity.
  - intros H%occursIn_occursb. vm_compute in H. discriminate.
  - vm_compute. reflexivity.
  - vm_compute. reflexivity.
  - vm_compute. reflexivity.
  - vm_compute. reflexivity.
Defined.

Lemma getStyles_all elements : getStyles elements CtxUndefined = innerText <$> elements.
Proof. induction elements as [|el l IH]; [done|]. cbn. by rewrite IH. Qed.

(** X18: without the test hook and with ["*"] among the imported packages,
    the text of every style element of the host, with the editor selector
    rewritten, is among the styles for display. *)
Theorem star_imports_all host el :
  getStylesOverride host = None →
  "*" ∈ importPackageStyles (atomConfig host) →
  el ∈ styleElements host →
  replaceAll "atom-text-editor" "pre.editor-colors" (innerText el)
  ∈ (getPreviewStyles host true).1.
Proof.
  intros Hnone Hstar Hel. unfold getPreviewStyles. rewrite Hnone. cbn [fst].
  apply elem_of_app. left. unfold displayStyles, includes.
  rewrite bool_decide_eq_true_2 by done.
  apply elem_of_app. right. right. apply elem_of_app. left.
  unfold processEditorStyles. rewrite getStyles_all.
  apply list_elem_of_fmap. exists (innerText el). split; [done|].
  apply list_elem_of_fmap. by exists el.
Qed.

Lemma star_imports_all_witness :
  replaceAll "atom-text-editor" "pre.editor-colors" "atom-text-editor { color: red }"
  ∈ (getPreviewStyles
       (mkHost [mkStyleElement None "atom-text-editor { color: red }"] ∅ "user.less" None
               (fun p => p) (fun _ => None) (mkConfig ["*"] false "") "/pkg"
               (fun parts => String.concat "/" parts) None (fun _ => None) (fun d => d))
       true).1.
Proof.
  apply (star_imports_all
           (mkHost [mkStyleElement None "atom-text-editor { color: red }"] ∅ "user.less" None
                   (fun p => p) (fun _ => None) (mkConfig ["*"] false "") "/pkg"
                   (fun parts => String.concat "/" parts) None (fun _ => None) (fun d => d))
           (mkStyleElement None "atom-text-editor { color: red }")).
  - reflexivity.
  - apply (list_elem_of_lookup_2 _ 0%nat). reflexivity.
  - apply (list_elem_of_lookup_2 _ 0%nat). reflexivity.
Defined.

End StylesFacts.
